(** * python-a2s: the synchronous transport ([a2s/a2s_sync.py]) and the
      record helper ([a2s/datacls.py])

    A shallow embedding of the two modules and the properties of the
    transport, the reassembly of multi-packet responses, the challenge
    retry loop and the construction of [DataclsMeta] records.

    Conventions.
    - [bytes] is a list of [Byte.byte]; a slice [b[:n]] is [take n b] and
      [b[n:]] is [drop n b].
    - Python integers are [Z]; the readings of [time.monotonic()] are
      binary64 floats ([PrimFloat.float]).
    - Code that raises, or that touches the socket or the clock, lives in
      the monad [M]: a function of the [World] to an [outcome]. *)

From Stdlib Require Import ZArith List Lia Sorted Permutation.
From Stdlib Require Import Strings.String Strings.Ascii Strings.Byte Strings.HexString.
From Stdlib Require Import Floats.PrimFloat.
From stdpp Require Import base tactics option list gmap strings.
Import ListNotations.

#[local] Open Scope Z_scope.

(** ** Bytes *)

Abbreviation bytes := (list byte).

#[global] Instance byte_eq_dec : EqDecision byte.
Proof.
  intros x y. destruct (Byte.eqb x y) eqn:E.
  - left. by apply Byte.byte_dec_bl.
  - right. intros ->. rewrite Byte.byte_dec_lb in E; [discriminate | done].
Defined.

(** The value of a byte as a Python [int]. *)
Definition byte_val (b : byte) : Z := Z.of_N (Byte.to_N b).

(** [bytes.join], with the empty separator *)
Definition bytes_join (parts : list bytes) : bytes := concat parts.

(** [b.startswith(prefix)] *)
Definition startswith (b prefix : bytes) : bool :=
  bool_decide (take (length prefix) b = prefix).

(** ** Exceptions and outcomes *)

Inductive exn : Type :=
  | BrokenMessageError (msg : string)   (* a2s.exceptions *)
  | BufferExhaustedError                (* a short read of the ByteReader *)
  | SocketTimeout                       (* socket.timeout *)
  | OSError (msg : string)              (* an operation on a closed socket *)
  | IndexError                          (* [l[0]] on an empty list *)
  | KeyError (key : string)             (* [d[key]] on a missing key *)
  | DecodeError (msg : string).         (* raised by an external decoder *)

(** Where a datagram was sent to. *)
Definition Address : Type := string * Z.

(** Modelled from the spec: [a2s.byteio.ByteReader] is not among the
    sources. The reader "exposes sequential little-endian primitive and
    encoded-string reads over the assembled buffer": it is the bytes not
    yet read, with the text encoding it was built with. *)
Record ByteReader : Type := mkReader {
  stream : bytes;
  text_encoding : string
}.

(** What a protocol's [deserialize_response] was called with: the reader,
    the response type and the ping. *)
Definition DeserializeCall : Type := ByteReader * Z * option float.

(** The records the module writes with [logger.debug]. *)
Inductive LogRecord : Type :=
  | Sending (data : bytes)                       (* "Sending packet: %r" *)
  | ReceivedSingle (data : bytes)                (* "Received single packet: %r" *)
  | ReceivedMulti (parts : nat) (content : bytes).
                                   (* "Received %s part packet with content: %r" *)

(** The part of the world a call can see or change. *)
Record World : Type := mkWorld {
  clock : nat → float;            (* the n-th reading of [time.monotonic()] *)
  inbox : list bytes;             (* datagrams that will arrive, in order *)
  sent : list (Address * bytes);  (* datagrams handed to [sendto], oldest first *)
  ticks : nat;                    (* readings of the clock taken so far *)
  sock_closed : bool;             (* has [socket.close()] been called *)
  deserialized : list DeserializeCall;  (* calls of the deserializer, oldest first *)
  log : list LogRecord            (* the records of the logger, oldest first *)
}.

Inductive outcome (A : Type) : Type :=
  | Return (a : A) (w : World)
  | Raise (e : exn) (w : World)
  | OutOfFuel.
Arguments Return {A} a w.
Arguments Raise {A} e w.
Arguments OutOfFuel {A}.

Definition M (A : Type) : Type := World → outcome A.

Definition ret {A} (a : A) : M A := λ w, Return a w.
Definition raise {A} (e : exn) : M A := λ w, Raise e w.
Definition bind {A B} (c : M A) (k : A → M B) : M B :=
  λ w, match c w with
       | Return a w' => k a w'
       | Raise e w' => Raise e w'
       | OutOfFuel => OutOfFuel
       end.

(** A pure computation that may raise. *)
Definition lift {A} (r : exn + A) : M A :=
  match r with inl e => raise e | inr a => ret a end.

Declare Scope a2s_scope.
Delimit Scope a2s_scope with a2s.
Notation "x <- c ;; k" := (bind c (λ x, k))
  (at level 100, c at next level, right associativity) : a2s_scope.
Notation "c ;;; k" := (bind c (λ _, k))
  (at level 100, right associativity) : a2s_scope.
#[local] Open Scope a2s_scope.

(** The world an outcome ends in, when it ends. *)
Definition world_of {A} (o : outcome A) : option World :=
  match o with
  | Return _ w | Raise _ w => Some w
  | OutOfFuel => None
  end.

Definition terminates {A} (o : outcome A) : Prop :=
  match o with OutOfFuel => False | _ => True end.

(** ** The socket and the clock *)

Definition set_inbox (w : World) (i : list bytes) : World :=
  mkWorld (clock w) i (sent w) (ticks w) (sock_closed w) (deserialized w) (log w).
Definition set_sent (w : World) (s : list (Address * bytes)) : World :=
  mkWorld (clock w) (inbox w) s (ticks w) (sock_closed w) (deserialized w) (log w).
Definition tick (w : World) : World :=
  mkWorld (clock w) (inbox w) (sent w) (S (ticks w)) (sock_closed w) (deserialized w) (log w).
Definition set_closed (w : World) (c : bool) : World :=
  mkWorld (clock w) (inbox w) (sent w) (ticks w) c (deserialized w) (log w).
Definition log_deserialize (w : World) (c : DeserializeCall) : World :=
  mkWorld (clock w) (inbox w) (sent w) (ticks w) (sock_closed w) (deserialized w ++ [c]) (log w).

Definition add_log (w : World) (r : LogRecord) : World :=
  mkWorld (clock w) (inbox w) (sent w) (ticks w) (sock_closed w) (deserialized w)
    (log w ++ [r]).

(** [logger.debug(...)] *)
Definition logger_debug (r : LogRecord) : M unit := λ w, Return tt (add_log w r).

Definition closed_socket_error : exn := OSError "Bad file descriptor".

(** [socket.sendto(packet, address)], on a socket that takes the
    datagram. What [sendto] refuses is not in the model: a port that is
    not one of 0 to 65535, a datagram longer than the 65507 bytes of a
    UDP payload, a host that cannot be reached. *)
Definition sock_sendto (packet : bytes) (address : Address) : M unit :=
  λ w, if sock_closed w then Raise closed_socket_error w
       else Return tt (set_sent w (sent w ++ [(address, packet)])).

(** [socket.recv(bufsize)]: the next datagram, cut to the size of the
    buffer; [socket.timeout] when none arrives in time. *)
Definition sock_recv (bufsize : Z) : M bytes :=
  λ w, if sock_closed w then Raise closed_socket_error w
       else match inbox w with
            | [] => Raise SocketTimeout w
            | d :: rest => Return (take (Z.to_nat bufsize) d) (set_inbox w rest)
            end.

(** [socket.close()] *)
Definition sock_close : M unit := λ w, Return tt (set_closed w true).

(** [socket.socket(AF_INET, SOCK_DGRAM)]: a fresh, open socket. *)
Definition sock_open : M unit := λ w, Return tt (set_closed w false).

(** [time.monotonic()] *)
Definition time_monotonic : M float :=
  λ w, Return (clock w (ticks w)) (tick w).

(** ** The byte reader *)

(** The little-endian value of a run of bytes. *)
Fixpoint le_val (bs : bytes) : Z :=
  match bs with
  | [] => 0
  | b :: rest => byte_val b + 256 * le_val rest
  end.

(** Modelled from the spec: a read of [size] bytes takes them from the
    front of the buffer. The spec has no word on a buffer with fewer
    bytes left; no value can be read from it, and the model ends the read
    with an error of the reader. *)
Definition reader_read (size : nat) (r : ByteReader) : exn + (bytes * ByteReader) :=
  if bool_decide (length (stream r) < size)%nat then inl BufferExhaustedError
  else inr (take size (stream r), mkReader (drop size (stream r)) (text_encoding r)).

(** Modelled from the spec: "read one unsigned byte". *)
Definition read_uint8 (r : ByteReader) : exn + (Z * ByteReader) :=
  match reader_read 1 r with
  | inl e => inl e
  | inr (bs, r') => inr (le_val bs, r')
  end.

(** Modelled from the spec: "read a 4-byte unsigned challenge value",
    little-endian. *)
Definition read_uint32 (r : ByteReader) : exn + (Z * ByteReader) :=
  match reader_read 4 r with
  | inl e => inl e
  | inr (bs, r') => inr (le_val bs, r')
  end.

(** The four bytes of an unsigned 32-bit value, least significant first. *)
Definition le32 (c : Z) : bytes :=
  map (λ i, default x00 (Byte.of_N (Z.to_N ((c / 256 ^ i) mod 256)))) [0; 1; 2; 3].

(** ** Module constants *)

Definition HEADER_SIMPLE : bytes := [xff; xff; xff; xff].
Definition HEADER_MULTI : bytes := [xfe; xff; xff; xff].
Definition A2S_CHALLENGE_RESPONSE : Z := 0x41.

(** ** Fragments *)

(** The fields of [a2s.a2s_fragment.A2SFragment] that the transport reads. *)
Record Fragment : Type := mkFragment {
  fragment_id : Z;
  fragment_count : Z;
  payload : bytes
}.

(** [list.sort(key=...)] is a stable sort: elements come out by ascending
    key, and elements of equal key keep their order. Insertion from the
    right, before the first element whose key is not smaller, is the
    stable sort written as a structural recursion. *)
Section sort.
Context {A : Type} (key : A → Z).

Fixpoint insert_by_key (x : A) (l : list A) : list A :=
  match l with
  | [] => [x]
  | y :: l' => if key x <=? key y then x :: y :: l' else y :: insert_by_key x l'
  end.

Fixpoint sort_by_key (l : list A) : list A :=
  match l with
  | [] => []
  | x :: l' => insert_by_key x (sort_by_key l')
  end.

(** The order of the keys, on the elements. *)
Definition key_le (a b : A) : Prop := key a <= key b.
End sort.

(** Lines 182 to 186 of [recv]: sort the fragments by id, join the
    payloads, drop one leading simple header when there is one. *)
Definition join_fragments (fragments : list Fragment) : bytes :=
  bytes_join (map payload (sort_by_key fragment_id fragments)).

Definition strip_header (reassembled : bytes) : bytes :=
  if startswith reassembled [xff; xff; xff; xff] then drop 4 reassembled
  else reassembled.

Definition reassemble (fragments : list Fragment) : bytes :=
  strip_header (join_fragments fragments).

(** ** [repr] and [hex] *)

Definition hexdigits : string := "0123456789abcdef".
Definition hexdigit (n : Z) : ascii :=
  default "0"%char (String.get (Z.to_nat n) hexdigits).

Definition str (cs : list ascii) : string := string_of_list_ascii cs.

(** One byte of [repr(b)], inside the quotes. *)
Definition repr_byte (quote c : byte) : list ascii :=
  if bool_decide (c = quote) || bool_decide (c = x5c)
  then ["\"%char; ascii_of_byte c]
  else if bool_decide (c = x09) then ["\"; "t"]%char
  else if bool_decide (c = x0a) then ["\"; "n"]%char
  else if bool_decide (c = x0d) then ["\"; "r"]%char
  else if (byte_val c <? 0x20) || (0x7f <=? byte_val c)
  then ["\"%char; "x"%char; hexdigit (byte_val c / 16); hexdigit (byte_val c mod 16)]
  else [ascii_of_byte c].

(** The quote [repr(b)] is written in: the single quote, unless the bytes
    hold a single quote and no double quote. *)
Definition repr_quote (b : bytes) : byte :=
  if bool_decide (x27 ∈ b) && negb (bool_decide (x22 ∈ b)) then x22 else x27.

(** [repr(b)] of a [bytes] object. *)
Definition bytes_repr (b : bytes) : string :=
  let quote := repr_quote b in
  str ("b"%char :: ascii_of_byte quote
       :: (concat (map (repr_byte quote) b) ++ [ascii_of_byte quote])).

(** The way back from [repr]: the value of a hexadecimal digit, and the
    byte at the head of what [repr_byte] has written. *)
Definition hexval (a : ascii) : option Z :=
  (λ r, Z.of_nat r.1) <$> list_find (λ x, x = a) (list_ascii_of_string hexdigits).

Definition unrepr_byte (s : list ascii) : option (byte * list ascii) :=
  match s with
  | [] => None
  | c :: rest =>
      if bool_decide (c = "\"%char) then
        match rest with
        | [] => None
        | e :: rest' =>
            if bool_decide (e = "t"%char) then Some (x09, rest')
            else if bool_decide (e = "n"%char) then Some (x0a, rest')
            else if bool_decide (e = "r"%char) then Some (x0d, rest')
            else if bool_decide (e = "x"%char) then
              match rest' with
              | h :: l :: rest'' =>
                  match hexval h, hexval l with
                  | Some hv, Some lv =>
                      (λ b, (b, rest'')) <$> Byte.of_N (Z.to_N (16 * hv + lv))
                  | _, _ => None
                  end
              | _ => None
              end
            else Some (byte_of_ascii e, rest')
        end
      else Some (byte_of_ascii c, rest)
  end.

(** [hex(n)] *)
Definition hex (n : Z) : string := HexString.of_Z n.

(** ** What the module imports and the sources do not hold *)

(** [decode_fragment] of [a2s.a2s_fragment] and [DEFAULT_RETRIES] of
    [a2s.defaults] are taken as they come. *)
Class Imports : Type := {
  decode_fragment : bytes → exn + Fragment;
  DEFAULT_RETRIES : Z
}.

(** A protocol class ([InfoProtocol], [PlayersProtocol], [RulesProtocol])
    with the three static methods the driver calls. *)
Record Protocol (R : Type) : Type := mkProtocol {
  serialize_request : Z → bytes;
  validate_response_type : Z → bool;
  deserialize_response : ByteReader → Z → option float → exn + R
}.
Arguments serialize_request {R} _ _.
Arguments validate_response_type {R} _ _.
Arguments deserialize_response {R} _ _ _ _.

(** [a2s_proto.deserialize_response(reader, response_type, ping)], with
    the call written to the log of the world. *)
Definition call_deserialize {R} (a2s_proto : Protocol R)
    (reader : ByteReader) (response_type : Z) (ping : option float) : M R :=
  λ w, lift (deserialize_response a2s_proto reader response_type ping)
            (log_deserialize w (reader, response_type, ping)).

(** ** [A2SStream] *)

Record A2SStream : Type := mkStream {
  address : Address
}.

Section a2s_sync.
Context {imports : Imports}.

(** [A2SStream.__init__], with a timeout that [settimeout] accepts and
    that is not zero: the time after which [sock_recv] gives up on an
    empty inbox. What [settimeout] does with another timeout is not in
    the model: it raises [ValueError] for a negative number and for NaN,
    and a timeout of zero makes the socket non-blocking. *)
Definition A2SStream_init (address : Address) (timeout : float) : M A2SStream :=
  sock_open ;;;
  ret (mkStream address).

(** [A2SStream.close] *)
Definition close (self : A2SStream) : M unit := sock_close.

(** [A2SStream.__del__] *)
Definition A2SStream_del (self : A2SStream) : M unit := close self.

(** [A2SStream.send] *)
Definition send (self : A2SStream) (data : bytes) : M unit :=
  logger_debug (Sending data) ;;;
  let packet := HEADER_SIMPLE ++ data in
  sock_sendto packet (address self).

(** The loop of [recv]:
    [while len(fragments) < fragments[0].fragment_count]. Each turn
    appends one fragment, so [fragments[0].fragment_count] turns are
    never used up: see [recv_terminates]. *)
Fixpoint recv_fragments (fuel : nat) (fragments : list Fragment) : M (list Fragment) :=
  match fragments with
  | [] => raise IndexError
  | first :: _ =>
      if Z.of_nat (length fragments) <? fragment_count first then
        match fuel with
        | O => λ _, OutOfFuel
        | S fuel' =>
            packet <- sock_recv 4096 ;;
            fragment <- lift (decode_fragment (drop 4 packet)) ;;
            recv_fragments fuel' (fragments ++ [fragment])
        end
      else ret fragments
  end.

(** A datagram [d] that arrives while the loop runs is read as the
    fragment [f]. *)
Definition continuation (d : bytes) (f : Fragment) : Prop :=
  decode_fragment (drop 4 (take (Z.to_nat 4096) d)) = inr f.

(** [A2SStream.recv] *)
Definition recv (self : A2SStream) : M bytes :=
  packet <- sock_recv 65535 ;;
  let header := take 4 packet in
  let data := drop 4 packet in
  if decide (header = HEADER_SIMPLE) then
    logger_debug (ReceivedSingle data) ;;;
    ret data
  else if decide (header = HEADER_MULTI) then
    first <- lift (decode_fragment data) ;;
    fragments <- recv_fragments (Z.to_nat (fragment_count first)) [first] ;;
    let reassembled := reassemble fragments in
    logger_debug (ReceivedMulti (length fragments) reassembled) ;;;
    ret reassembled
  else
    raise (BrokenMessageError (String.append "Invalid packet header: " (bytes_repr header))).

(** [A2SStream.request] *)
Definition request (self : A2SStream) (payload : bytes) : M bytes :=
  send self payload ;;;
  recv self.

(** ** The request driver *)

(** [request_sync_impl]. The recursion of the source is on nothing that
    gets smaller in the eyes of Rocq, so the model counts the calls
    down from [fuel]; [request_sync_impl_terminates] shows how much is
    enough. *)
Fixpoint request_sync_impl {R} (fuel : nat) (conn : A2SStream) (encoding : string)
    (a2s_proto : Protocol R) (challenge retries : Z) (ping : option float) : M R :=
  match fuel with
  | O => λ _, OutOfFuel
  | S fuel' =>
      send_time <- time_monotonic ;;
      resp_data <- request conn (serialize_request a2s_proto challenge) ;;
      recv_time <- time_monotonic ;;
      (* Only set ping on first packet received *)
      let ping := if retries =? 0 then Some (recv_time - send_time)%float else ping in
      let reader := mkReader resp_data encoding in
      rt <- lift (read_uint8 reader) ;;
      let response_type := rt.1 in
      let reader := rt.2 in
      if response_type =? A2S_CHALLENGE_RESPONSE then
        if retries >=? DEFAULT_RETRIES then
          raise (BrokenMessageError "Server keeps sending challenge responses")
        else
          ch <- lift (read_uint32 reader) ;;
          let challenge := ch.1 in
          request_sync_impl fuel' conn encoding a2s_proto challenge (retries + 1) ping
      else if negb (validate_response_type a2s_proto response_type) then
        raise (BrokenMessageError
                 (String.append "Invalid response type: " (hex response_type)))
      else
        call_deserialize a2s_proto reader response_type ping
  end.

(** The calls of one [request_sync]: a first one and at most
    [DEFAULT_RETRIES] retries. *)
Definition enough_fuel : nat := S (Z.to_nat DEFAULT_RETRIES).

(** [request_sync] *)
Definition request_sync {R} (address : Address) (timeout : float) (encoding : string)
    (a2s_proto : Protocol R) : M R :=
  conn <- A2SStream_init address timeout ;;
  response <- request_sync_impl enough_fuel conn encoding a2s_proto 0 0 None ;;
  close conn ;;;
  ret response.
End a2s_sync.

(** The stream of a call is a local of [request_sync]. When the call has
    returned, nothing refers to it; when the call has raised, the
    traceback of the exception does, until the exception has been dealt
    with. Then the stream is discarded and Python runs its [__del__];
    an exception of [__del__] is not raised further. *)
Definition discarded {A} (conn : A2SStream) (o : outcome A) : outcome A :=
  match o with
  | Return a w =>
      match A2SStream_del conn w with
      | Return _ w' | Raise _ w' => Return a w'
      | OutOfFuel => OutOfFuel
      end
  | Raise e w =>
      match A2SStream_del conn w with
      | Return _ w' | Raise _ w' => Raise e w'
      | OutOfFuel => OutOfFuel
      end
  | OutOfFuel => OutOfFuel
  end.

(** ** Words to state the properties with *)

(** Is a record of the log one of a response received? *)
Definition is_received (r : LogRecord) : bool :=
  match r with
  | Sending _ => false
  | ReceivedSingle _ | ReceivedMulti _ _ => true
  end.

(** A log of exchanges: each request that was sent is followed by the
    response to it, but for the last one, which may have none. *)
Fixpoint exchanges (l : list LogRecord) : Prop :=
  match l with
  | [] => True
  | Sending _ :: l' =>
      match l' with
      | [] => True
      | r :: l'' => is_received r = true ∧ exchanges l''
      end
  | _ => False
  end.

(** What [recv] and [request] leave as it is: the clock, the state of the
    socket and the calls of the deserializer. *)
Definition same_session (w w' : World) : Prop :=
  clock w' = clock w ∧ ticks w' = ticks w
  ∧ sock_closed w' = sock_closed w ∧ deserialized w' = deserialized w.

(** The ping after an attempt whose clock readings were taken in [w],
    before the request, and in [w1], after the response:
    [if retries == 0: ping = recv_time - send_time]. *)
Definition attempt_ping (retries : Z) (ping : option float) (w w1 : World)
    : option float :=
  if retries =? 0 then Some (clock w1 (ticks w1) - clock w (ticks w))%float else ping.

Section attempt.
Context {imports : Imports} {R : Type}.

(** The ways one attempt can go. *)
Inductive attempt_case fuel conn encoding a2s_proto challenge retries ping w
    : outcome R → Prop :=
  | no_response e w1 :
      request conn (serialize_request a2s_proto challenge) (tick w) = Raise e w1 →
      attempt_case fuel conn encoding a2s_proto challenge retries ping w (Raise e w1)
  | empty_response w1 :
      request conn (serialize_request a2s_proto challenge) (tick w) = Return [] w1 →
      attempt_case fuel conn encoding a2s_proto challenge retries ping w
        (Raise BufferExhaustedError (tick w1))
  | challenge_again b rest w1 :
      request conn (serialize_request a2s_proto challenge) (tick w)
      = Return (b :: rest) w1 →
      byte_val b = A2S_CHALLENGE_RESPONSE → DEFAULT_RETRIES <= retries →
      attempt_case fuel conn encoding a2s_proto challenge retries ping w
        (Raise (BrokenMessageError "Server keeps sending challenge responses") (tick w1))
  | challenge_short b rest w1 :
      request conn (serialize_request a2s_proto challenge) (tick w)
      = Return (b :: rest) w1 →
      byte_val b = A2S_CHALLENGE_RESPONSE → retries < DEFAULT_RETRIES →
      (length rest < 4)%nat →
      attempt_case fuel conn encoding a2s_proto challenge retries ping w
        (Raise BufferExhaustedError (tick w1))
  | challenge_retry b rest w1 :
      request conn (serialize_request a2s_proto challenge) (tick w)
      = Return (b :: rest) w1 →
      byte_val b = A2S_CHALLENGE_RESPONSE → retries < DEFAULT_RETRIES →
      (4 ≤ length rest)%nat →
      attempt_case fuel conn encoding a2s_proto challenge retries ping w
        (request_sync_impl fuel conn encoding a2s_proto (le_val (take 4 rest))
           (retries + 1) (attempt_ping retries ping w w1) (tick w1))
  | invalid_type b rest w1 :
      request conn (serialize_request a2s_proto challenge) (tick w)
      = Return (b :: rest) w1 →
      byte_val b ≠ A2S_CHALLENGE_RESPONSE →
      validate_response_type a2s_proto (byte_val b) = false →
      attempt_case fuel conn encoding a2s_proto challenge retries ping w
        (Raise (BrokenMessageError
                  (String.append "Invalid response type: " (hex (byte_val b))))
           (tick w1))
  | valid_type b rest w1 :
      request conn (serialize_request a2s_proto challenge) (tick w)
      = Return (b :: rest) w1 →
      byte_val b ≠ A2S_CHALLENGE_RESPONSE →
      validate_response_type a2s_proto (byte_val b) = true →
      attempt_case fuel conn encoding a2s_proto challenge retries ping w
        (call_deserialize a2s_proto (mkReader rest encoding) (byte_val b)
           (attempt_ping retries ping w w1) (tick w1)).
End attempt.

(** The datagram of a challenge response with the challenge [c]. *)
Definition challenge_datagram (c : Z) : bytes := HEADER_SIMPLE ++ x41 :: le32 c.

(** The datagram [send] makes of the request with the challenge [c]. *)
Definition request_datagram {R} (conn : A2SStream) (a2s_proto : Protocol R) (c : Z)
    : Address * bytes :=
  (address conn, HEADER_SIMPLE ++ serialize_request a2s_proto c).

(** What a call ends with, apart from the world: the value it returns or
    the exception it raises. *)
Definition result {A} (o : outcome A) : option (exn + A) :=
  match o with
  | Return a _ => Some (inr a)
  | Raise e _ => Some (inl e)
  | OutOfFuel => None
  end.

(** Two datagrams with the same bytes after the first four. *)
Definition same_body (d d' : bytes) : Prop := drop 4 d = drop 4 d'.

(** Two worlds that differ at most in the first four bytes of the
    datagrams that will arrive. *)
Definition alike (w w' : World) : Prop :=
  set_inbox w [] = set_inbox w' [] ∧ Forall2 same_body (inbox w) (inbox w').

(** Two outcomes with the same result, in worlds that are alike. *)
Definition outcomes_alike {A} (o o' : outcome A) : Prop :=
  match o, o' with
  | Return a w, Return a' w' => a = a' ∧ alike w w'
  | Raise e w, Raise e' w' => e = e' ∧ alike w w'
  | OutOfFuel, OutOfFuel => True
  | _, _ => False
  end.

(** ** Instances to run the model on *)

(** Modelled from the spec: [a2s.a2s_fragment.decode_fragment] is not
    among the sources. It parses a datagram body into "fragment id, total
    fragment count, and remaining payload bytes" and "fails with a
    malformed-fragment error if the body is shorter than the fixed
    fragment-header size". The spec leaves the widths open; this instance
    reads one byte for each of the two numbers. *)
Definition sample_decode_fragment (data : bytes) : exn + Fragment :=
  match data with
  | id :: count :: rest => inr (mkFragment (byte_val id) (byte_val count) rest)
  | _ => inl (BrokenMessageError "Invalid fragment")
  end.

Definition sample_imports : Imports :=
  {| decode_fragment := sample_decode_fragment; DEFAULT_RETRIES := 5 |}.

(** A protocol whose request is ['T'] and the challenge, which accepts
    the response type ['I'] and decodes to the bytes after it. *)
Definition sample_protocol : Protocol (bytes * option float) :=
  {| serialize_request := λ challenge, x54 :: le32 challenge;
     validate_response_type := λ t, t =? 0x49;
     deserialize_response := λ reader _ ping, inr (stream reader, ping) |}.

Definition sample_clock (n : nat) : float :=
  nth n [1.0; 1.25; 3.0; 3.5; 7.0; 8.0]%float 9.0%float.

(** A world before the socket is made: nothing sent, the clock unread. *)
Definition sample_world (arriving : list bytes) : World :=
  mkWorld sample_clock arriving [] 0 false [] [].

Definition sample_conn : A2SStream := mkStream ("203.0.113.7"%string, 27015).

(** * [a2s/datacls.py] *)

Module datacls.

(** ** Values and the store *)

(** A Python value is an immutable value or a reference to a mutable
    object of the store. Two references are the same object when they
    are the same location. *)
Inductive value : Type :=
  | VNone
  | VBool (b : bool)
  | VInt (n : Z)
  | VStr (s : string)
  | VBytes (b : bytes)
  | VRef (l : nat).

Inductive object : Type :=
  | OList (items : list value)
  | ODict (items : list (value * value)).

Abbreviation Heap := (list object).

#[global] Instance value_eq_dec : EqDecision value.
Proof. solve_decision. Defined.

(** [copy.copy(x)]: an immutable value is returned as it is; of a list
    or a dict a new object is made that holds the same items. (A
    reference always points into the store; the model leaves a
    reference that does not as it is.) *)
Definition copy_copy (x : value) (h : Heap) : value * Heap :=
  match x with
  | VRef l =>
      match h !! l with
      | Some o => (VRef (length h), h ++ [o])
      | None => (x, h)
      end
  | _ => (x, h)
  end.

(** ** [OrderedDict] *)

Abbreviation OrderedDict := (list (string * value)).

(** [od[k] = v]: a new key goes to the end, a known key keeps its place. *)
Definition od_set (k : string) (v : value) (od : OrderedDict) : OrderedDict :=
  if bool_decide (k ∈ od.*1)
  then map (λ kv, if bool_decide (kv.1 = k) then (k, v) else kv) od
  else od ++ [(k, v)].

(** ** [DataclsMeta] *)

(** The namespace of a class body: the names under
    [prop["__annotations__"]], in the order they were written, when the
    body has annotations at all, and the other entries, the class
    variables. *)
Record ClassBody : Type := mkBody {
  annotations : option (list string);
  members : gmap string value
}.

(** What the namespace holds under a name when [DataclsMeta.__new__]
    hands it on: a class variable of the body, or one of the two objects
    that [__new__] writes, the list of the slots and the defaults. *)
Inductive member : Type :=
  | ClassVar (v : value)
  | SlotNames (names : list string)
  | Defaults (values : OrderedDict).

(** A class made by [DataclsMeta]: the three arguments of
    [super().__new__(cls, name, bases, prop)], and, read from the
    namespace, the two attributes that [DataclsBase] and the interpreter
    use. [namespace] is [prop] as it is handed on, not the [__dict__] of
    the class, to which [type.__new__] adds a descriptor for each
    slot. *)
Record Dataclass : Type := mkClass {
  cls_name : string;
  cls_bases : list string;
  _defaults : OrderedDict;
  __slots__ : list string;
  namespace : gmap string member
}.

(** One turn of the loop of [DataclsMeta.__new__]. *)
Definition collect_default (st : OrderedDict * gmap string value) (member_name : string)
    : OrderedDict * gmap string value :=
  let values := st.1 in
  let prop := st.2 in
  match prop !! member_name with
  | Some v =>
      (* Store default value and remove the class variable *)
      (od_set member_name v values, delete member_name prop)
  | None =>
      (* Set None as the default value *)
      (od_set member_name VNone values, prop)
  end.

(** [DataclsMeta.__new__], for a class that [type.__new__] accepts:
    the [TypeError] it has for bases that do not go together is not in
    the model. *)
Definition DataclsMeta_new (name : string) (bases : list string) (prop : ClassBody)
    : exn + Dataclass :=
  match annotations prop with
  | None => inl (KeyError "__annotations__")
  | Some names =>
      let st := foldl collect_default ([], members prop) names in
      let values := st.1 in
      let prop := <["__slots__"%string := SlotNames values.*1]> (ClassVar <$> st.2) in
      let prop := <["_defaults"%string := Defaults values]> prop in
      inr (mkClass name ("DataclsBase"%string :: bases) values (values.*1) prop)
  end.

(** ** [DataclsBase] *)

(** The attributes of an instance. *)
Abbreviation Instance_ := (gmap string value).

(** One turn of the loop of [DataclsBase.__init__]. *)
Definition init_field (kwargs : gmap string value) (st : Instance_ * Heap)
    (item : string * value) : Instance_ * Heap :=
  let name := item.1 in
  let value := match kwargs !! name with
               | Some v => v
               | None => item.2
               end in
  let c := copy_copy value st.2 in
  (<[name := c.1]> st.1, c.2).

(** [DataclsBase.__init__] *)
Definition DataclsBase_init (cls : Dataclass) (self : Instance_)
    (kwargs : gmap string value) (h : Heap) : Instance_ * Heap :=
  foldl (init_field kwargs) (self, h) (_defaults cls).

(** A call of the class with keyword arguments: a new instance, with
    no attribute yet, is handed to [__init__]. *)
Definition construct (cls : Dataclass) (kwargs : gmap string value) (h : Heap)
    : Instance_ * Heap :=
  DataclsBase_init cls ∅ kwargs h.

(** ** Words to state the properties with *)

(** The value a field is made from: the keyword argument of its name
    when there is one, else its default. *)
Definition field_source (kwargs : gmap string value) (item : string * value) : value :=
  match kwargs !! item.1 with
  | Some v => v
  | None => item.2
  end.

(** A reference of [v] points into the store. *)
Definition valid (h : Heap) (v : value) : Prop :=
  match v with
  | VRef l => is_Some (h !! l)
  | _ => True
  end.

(** [c], in the store [h'], is a shallow copy of [x], made when the
    store was [h]: [x] itself when [x] is immutable, else a reference
    to an object that [h] did not hold and that is equal to the one
    [x] points to. *)
Definition shallow_copy (h : Heap) (x : value) (h' : Heap) (c : value) : Prop :=
  match x with
  | VRef l =>
      ∃ l', c = VRef l' ∧ (length h ≤ l')%nat
            ∧ is_Some (h !! l) ∧ h' !! l' = h !! l
  | _ => c = x
  end.

(** The default of a field, as the class body declares it. *)
Definition declared_default (prop : ClassBody) (name : string) : value :=
  default VNone (members prop !! name).

(** ** An instance to run the model on *)

(** [class Player(metaclass=DataclsMeta)] with the fields
    [name: str], [score: int = 0], [tags: list = <the list at 0>]. *)
Definition sample_body : ClassBody :=
  mkBody (Some ["name"; "score"; "tags"]%string)
         (<["score" := VInt 0]> (<["tags" := VRef 0]> ∅)).

Definition sample_heap : Heap := [OList [VStr "a"]; OList [VInt 1; VInt 2]].

(** The class [DataclsMeta] makes of [sample_body]. *)
Definition sample_class : Dataclass :=
  mkClass "Player" ["DataclsBase"%string]
    [("name"%string, VNone); ("score"%string, VInt 0); ("tags"%string, VRef 0)]
    ["name"; "score"; "tags"]%string
    (<["_defaults"%string :=
         Defaults [("name"%string, VNone); ("score"%string, VInt 0);
                   ("tags"%string, VRef 0)]]>
       (<["__slots__"%string := SlotNames ["name"; "score"; "tags"]%string]> ∅)).

End datacls.

(** ** Runs of the driver on the sample server *)

(** A server that answers with the challenge 7, then with an info
    response; the world after the first exchange, and at the end of the
    call. *)
Definition sample_challenged : World :=
  sample_world [challenge_datagram 7; [xff; xff; xff; xff; x49; x01]].

Definition sample_challenged_1 : World :=
  mkWorld sample_clock [[xff; xff; xff; xff; x49; x01]]
    [request_datagram sample_conn sample_protocol 0] 1 false []
    [Sending (serialize_request sample_protocol 0); ReceivedSingle (x41 :: le32 7)].

Definition sample_challenged_end : World :=
  mkWorld sample_clock []
    [request_datagram sample_conn sample_protocol 0;
     request_datagram sample_conn sample_protocol 7] 4 false
    [(mkReader [x01] "utf-8", 0x49, Some 0.25%float)]
    [Sending (serialize_request sample_protocol 0); ReceivedSingle (x41 :: le32 7);
     Sending (serialize_request sample_protocol 7); ReceivedSingle [x49; x01]].

(** A server that answers with a response of type 0x50, which the sample
    protocol refuses; the world after the exchange. *)
Definition sample_refused : World :=
  sample_world [[xff; xff; xff; xff; x50; x01]].

Definition sample_refused_1 : World :=
  mkWorld sample_clock []
    [request_datagram sample_conn sample_protocol 0] 1 false []
    [Sending (serialize_request sample_protocol 0); ReceivedSingle [x50; x01]].

(** ** [DataclsBase.__iter__] *)

Module datacls_iter.
Import datacls.

(** [getattr(self, name)] on a slot that was never set. *)
Inductive attribute_error : Type :=
  | AttributeError (name : string).

(** [DataclsBase.__iter__]: the generator yields the pair of each name of
    [__annotations__], in order, and of its attribute; it ends at the
    first name whose attribute is not set, with the error of [getattr].
    The result is what was yielded and how the generator ended. *)
Fixpoint DataclsBase_iter (annotations : list string) (self : Instance_)
    : list (string * value) * option attribute_error :=
  match annotations with
  | [] => ([], None)
  | name :: rest =>
      match self !! name with
      | None => ([], Some (AttributeError name))
      | Some v =>
          let r := DataclsBase_iter rest self in
          ((name, v) :: r.1, r.2)
      end
  end.

(** [dict(pairs)], as keyword arguments. *)
Definition as_kwargs (pairs : list (string * value)) : gmap string value :=
  list_to_map pairs.

End datacls_iter.

(** * Properties *)

(** ** Bytes *)

Lemma byte_val_range b : 0 <= byte_val b < 256.
Proof.
  unfold byte_val. pose proof (Byte.to_N_bounded b) as H. lia.
Qed.

Lemma byte_val_inj a b : byte_val a = byte_val b → a = b.
Proof.
  unfold byte_val. intros H. apply N2Z.inj in H.
  apply (f_equal Byte.of_N) in H. rewrite !Byte.of_to_N in H. congruence.
Qed.

Lemma startswith_app prefix rest : startswith (prefix ++ rest) prefix = true.
Proof.
  unfold startswith. apply bool_decide_eq_true. by rewrite take_app_length.
Qed.

Lemma startswith_true b prefix :
  startswith b prefix = true → b = prefix ++ drop (length prefix) b.
Proof.
  unfold startswith. intros H%bool_decide_eq_true.
  rewrite <- H at 1. by rewrite take_drop.
Qed.

Lemma le_val_le32 c : 0 <= c < 2 ^ 32 → le_val (le32 c) = c.
Proof.
  intros Hc. unfold le32. cbn [map le_val].
  assert (Hb : ∀ n, 0 <= n < 256 →
    byte_val (default x00 (Byte.of_N (Z.to_N n))) = n).
  { intros n Hn. unfold byte_val.
    destruct (Byte.of_N (Z.to_N n)) as [b|] eqn:E.
    - apply Byte.to_of_N in E. simpl. rewrite E. lia.
    - apply Byte.of_N_None_iff in E. lia. }
  rewrite !Hb by (apply Z.mod_pos_bound; lia).
  change (256 ^ 0) with 1. change (256 ^ 1) with 256.
  change (256 ^ 2) with 65536. change (256 ^ 3) with 16777216.
  rewrite Z.div_1_r. change (2 ^ 32) with 4294967296 in Hc.
  change 65536 with (256 * 256). change 16777216 with (256 * 256 * 256).
  rewrite <- !Z.div_div by lia.
  generalize (Z.div_mod c 256), (Z.div_mod (c / 256) 256),
    (Z.div_mod (c / 256 / 256) 256), (Z.div_mod (c / 256 / 256 / 256) 256).
  generalize (Z.mod_pos_bound c 256), (Z.mod_pos_bound (c / 256) 256),
    (Z.mod_pos_bound (c / 256 / 256) 256),
    (Z.mod_pos_bound (c / 256 / 256 / 256) 256).
  generalize (c mod 256), ((c / 256) mod 256), ((c / 256 / 256) mod 256),
    ((c / 256 / 256 / 256) mod 256).
  generalize (c / 256 / 256 / 256 / 256).
  generalize (c / 256 / 256 / 256). generalize (c / 256 / 256).
  generalize (c / 256). intros. lia.
Qed.

Lemma length_le32 c : length (le32 c) = 4%nat.
Proof. reflexivity. Qed.

(** ** The monad *)

Lemma bind_Return {A B} (c : M A) (k : A → M B) w a w' :
  c w = Return a w' → bind c k w = k a w'.
Proof. unfold bind. by intros ->. Qed.

Lemma bind_Raise {A B} (c : M A) (k : A → M B) w e w' :
  c w = Raise e w' → bind c k w = Raise e w'.
Proof. unfold bind. by intros ->. Qed.

Lemma bind_inv_Return {A B} (c : M A) (k : A → M B) w b w' :
  bind c k w = Return b w' → ∃ a w1, c w = Return a w1 ∧ k a w1 = Return b w'.
Proof. unfold bind. destruct (c w); [eauto | done | done]. Qed.

Lemma bind_terminates {A B} (c : M A) (k : A → M B) w :
  terminates (c w) → (∀ a w1, c w = Return a w1 → terminates (k a w1)) →
  terminates (bind c k w).
Proof. unfold bind. destruct (c w); simpl; eauto. Qed.

Lemma lift_terminates {A} (r : exn + A) w : terminates (lift r w).
Proof. by destruct r. Qed.

Lemma lift_inv_Return {A} (r : exn + A) w a w' :
  lift r w = Return a w' → r = inr a ∧ w' = w.
Proof. destruct r; simpl; unfold raise, ret; intros [=]; by subst. Qed.

(** ** The socket *)

Lemma sock_recv_terminates n w : terminates (sock_recv n w).
Proof. unfold sock_recv. destruct (sock_closed w), (inbox w); done. Qed.

Lemma sock_recv_inv n w packet w1 :
  sock_recv n w = Return packet w1 →
  ∃ d, sock_closed w = false ∧ inbox w = d :: inbox w1 ∧
       packet = take (Z.to_nat n) d ∧ w1 = set_inbox w (inbox w1).
Proof.
  unfold sock_recv. destruct (sock_closed w) eqn:Hc; [done|].
  destruct (inbox w) as [|d rest] eqn:Hi; [done|].
  intros [= <- <-]. by exists d.
Qed.

Lemma sock_recv_raise n w e w1 : sock_recv n w = Raise e w1 → w1 = w.
Proof.
  unfold sock_recv. destruct (sock_closed w), (inbox w); by intros [= _ <-].
Qed.

Lemma sock_recv_closed n w packet w1 :
  sock_recv n w = Return packet w1 → sock_closed w1 = false.
Proof. intros (d & Hc & _ & _ & ->)%sock_recv_inv. done. Qed.

(** ** Sorting by a key *)

Section sort_facts.
Context {A : Type} (key : A → Z).

Lemma insert_by_key_perm x l : insert_by_key key x l ≡ₚ x :: l.
Proof.
  induction l as [|y l IH]; simpl; [done|].
  destruct (key x <=? key y); [done|].
  rewrite IH. apply Permutation_swap.
Qed.

Lemma sort_by_key_perm l : sort_by_key key l ≡ₚ l.
Proof.
  induction l as [|x l IH]; simpl; [done|].
  by rewrite insert_by_key_perm, IH.
Qed.

Lemma sort_by_key_length l : length (sort_by_key key l) = length l.
Proof. by rewrite sort_by_key_perm. Qed.

Lemma insert_by_key_sorted x l :
  StronglySorted (key_le key) l → StronglySorted (key_le key) (insert_by_key key x l).
Proof.
  induction 1 as [|y l Hl IH Hy]; simpl.
  - repeat constructor.
  - destruct (Z.leb_spec (key x) (key y)) as [Hxy|Hxy].
    + constructor; [by constructor|].
      constructor; [done|].
      eapply Forall_impl; [exact Hy|]. unfold key_le. intros; lia.
    + constructor; [done|].
      rewrite insert_by_key_perm. constructor; [unfold key_le; lia | done].
Qed.

Lemma sort_by_key_sorted l : StronglySorted (key_le key) (sort_by_key key l).
Proof.
  induction l; simpl; [constructor | by apply insert_by_key_sorted].
Qed.

(** The sort is stable: the elements of one key keep their order. *)
Lemma insert_by_key_stable k x l :
  StronglySorted (key_le key) l →
  filter (λ a, key a = k) (insert_by_key key x l)
  = filter (λ a, key a = k) (x :: l).
Proof.
  induction 1 as [|y l Hl IH Hy]; [done|]. simpl.
  destruct (Z.leb_spec (key x) (key y)) as [Hxy|Hxy]; [done|].
  rewrite filter_cons, IH, !filter_cons.
  destruct (decide (key y = k)), (decide (key x = k)); try done.
  lia.
Qed.

Lemma sort_by_key_stable k l :
  filter (λ a, key a = k) (sort_by_key key l) = filter (λ a, key a = k) l.
Proof.
  induction l as [|x l IH]; [done|]. simpl.
  rewrite insert_by_key_stable by apply sort_by_key_sorted.
  by rewrite !filter_cons, IH.
Qed.

(** Two elements of different keys can be inserted in either order. *)
Lemma insert_by_key_comm x y l :
  key x ≠ key y →
  insert_by_key key x (insert_by_key key y l)
  = insert_by_key key y (insert_by_key key x l).
Proof.
  intros Hne. induction l as [|z l IH]; simpl.
  - destruct (Z.leb_spec (key x) (key y)), (Z.leb_spec (key y) (key x));
      try done; lia.
  - destruct (Z.leb_spec (key x) (key z)), (Z.leb_spec (key y) (key z)); simpl;
      repeat match goal with
             | |- context [?a <=? ?b] => destruct (Z.leb_spec a b)
             end; try done; try lia.
    by rewrite IH.
Qed.

(** With no key twice, the sorted list is the same for every order the
    elements come in. *)
Lemma sort_by_key_perm_invariant l l' :
  l ≡ₚ l' → NoDup (key <$> l) → sort_by_key key l = sort_by_key key l'.
Proof.
  induction 1 as [|x l l' Hp IH|x y l|l l' l'' Hp1 IH1 Hp2 IH2]; intros Hnd.
  - done.
  - simpl. rewrite IH; [done|]. by apply NoDup_cons in Hnd as [_ ?].
  - simpl. apply insert_by_key_comm.
    rewrite !fmap_cons in Hnd. apply NoDup_cons_1_1 in Hnd.
    rewrite not_elem_of_cons in Hnd. destruct Hnd as [Hne _]. congruence.
  - rewrite IH1 by done. apply IH2. by rewrite <- Hp1.
Qed.
End sort_facts.

(** ** Reassembly *)

Lemma strip_header_marker rest : strip_header (HEADER_SIMPLE ++ rest) = rest.
Proof.
  unfold strip_header. change [xff; xff; xff; xff] with HEADER_SIMPLE.
  by rewrite startswith_app.
Qed.

Lemma strip_header_other b : take 4 b ≠ HEADER_SIMPLE → strip_header b = b.
Proof.
  intros Hne. unfold strip_header, startswith.
  by rewrite bool_decide_eq_false_2.
Qed.

Lemma join_fragments_sorted fragments :
  StronglySorted (key_le fragment_id) (sort_by_key fragment_id fragments).
Proof. apply sort_by_key_sorted. Qed.

(** The reassembly alone, of fragments that have been collected: with
    distinct fragment ids, sorting by ascending fragment id, joining the
    payloads and dropping a leading simple header gives the same buffer
    whatever the order the fragments were collected in. *)
Theorem reassemble_order_independent (fragments fragments' : list Fragment) :
  NoDup (fragment_id <$> fragments) →
  fragments ≡ₚ fragments' →
  join_fragments fragments = join_fragments fragments'
  ∧ reassemble fragments = reassemble fragments'.
Proof.
  intros Hnd Hp. unfold reassemble, join_fragments.
  by rewrite (sort_by_key_perm_invariant fragment_id _ _ Hp Hnd).
Qed.

Lemma reassemble_order_independent_witness :
  reassemble [mkFragment 2 3 [x03]; mkFragment 0 3 [x01]; mkFragment 1 3 [x02]]
  = reassemble [mkFragment 0 3 [x01]; mkFragment 1 3 [x02]; mkFragment 2 3 [x03]].
Proof.
  refine (proj2 (reassemble_order_independent _ _ _ _)).
  - apply (bool_decide_unpack _). vm_compute. exact I.
  - apply (Permutation_cons_append [_; _]).
Defined.

(** ** [repr] of bytes *)

Lemma unrepr_repr_byte quote c rest :
  quote = x27 ∨ quote = x22 →
  unrepr_byte (repr_byte quote c ++ rest) = Some (c, rest).
Proof. intros [->| ->]; destruct c; reflexivity. Qed.

Lemma unrepr_repr_bytes quote (b1 : bytes) : ∀ b2 : bytes,
  quote = x27 ∨ quote = x22 →
  concat (map (repr_byte quote) b1) = concat (map (repr_byte quote) b2) →
  b1 = b2.
Proof.
  induction b1 as [|c1 b1 IH]; intros [|c2 b2] Hq Heq; simpl in Heq.
  - done.
  - apply (f_equal unrepr_byte) in Heq.
    rewrite <- (app_nil_r (repr_byte quote c2 ++ _)), <- app_assoc in Heq.
    by rewrite unrepr_repr_byte in Heq.
  - apply (f_equal unrepr_byte) in Heq.
    rewrite <- (app_nil_r (repr_byte quote c1 ++ _)), <- app_assoc in Heq.
    by rewrite unrepr_repr_byte in Heq.
  - apply (f_equal unrepr_byte) in Heq. rewrite !unrepr_repr_byte in Heq by done.
    injection Heq as -> Heq. f_equal. by apply IH.
Qed.

Lemma repr_quote_cases b : repr_quote b = x27 ∨ repr_quote b = x22.
Proof. unfold repr_quote. destruct (_ && _); auto. Qed.

(** [repr] tells the bytes: two byte strings with the same [repr] are
    the same. *)
Lemma bytes_repr_inj b1 b2 : bytes_repr b1 = bytes_repr b2 → b1 = b2.
Proof.
  unfold bytes_repr, str. intros Heq.
  apply (f_equal list_ascii_of_string) in Heq.
  rewrite !list_ascii_of_string_of_list_ascii in Heq.
  injection Heq as Hq Heq.
  apply (f_equal byte_of_ascii) in Hq. rewrite !byte_of_ascii_of_byte in Hq.
  rewrite Hq in Heq. apply app_inv_tail in Heq.
  apply (unrepr_repr_bytes (repr_quote b2)); [apply repr_quote_cases | done].
Qed.

(** ** [A2SStream.recv] *)

Lemma set_inbox_inbox w : set_inbox w (inbox w) = w.
Proof. by destruct w. Qed.

Section transport_facts.
Context {imports : Imports}.
Implicit Types (conn : A2SStream) (w : World) (first : Fragment).

Lemma recv_fragments_eq fuel first rest :
  recv_fragments fuel (first :: rest) =
  if Z.of_nat (length (first :: rest)) <? fragment_count first then
    match fuel with
    | O => λ _, OutOfFuel
    | S fuel' =>
        packet <- sock_recv 4096 ;;
        fragment <- lift (decode_fragment (drop 4 packet)) ;;
        recv_fragments fuel' ((first :: rest) ++ [fragment])
    end
  else ret (first :: rest).
Proof. by destruct fuel. Qed.

(** The loop never uses up the turns it is given. *)
Lemma recv_fragments_terminates fuel first rest w :
  (Z.to_nat (fragment_count first) ≤ fuel + length (first :: rest))%nat →
  terminates (recv_fragments fuel (first :: rest) w).
Proof.
  revert rest w. induction fuel as [|fuel IH]; intros rest w Hfuel;
    rewrite recv_fragments_eq;
    destruct (Z.ltb_spec (Z.of_nat (length (first :: rest))) (fragment_count first));
    try done.
  - lia.
  - apply bind_terminates; [apply sock_recv_terminates|].
    intros packet w1 _. apply bind_terminates; [apply lift_terminates|].
    intros f w2 _. apply IH. simpl in *. rewrite length_app. simpl. lia.
Qed.

(** What the loop has done when it returns. *)
Lemma recv_fragments_inv fuel first rest w fragments w' :
  recv_fragments fuel (first :: rest) w = Return fragments w' →
  ∃ ds more,
    fragments = first :: rest ++ more
    ∧ inbox w = ds ++ inbox w'
    ∧ Forall2 continuation ds more
    ∧ w' = set_inbox w (inbox w')
    ∧ fragment_count first <= Z.of_nat (length fragments)
    ∧ (more ≠ [] → Z.of_nat (length fragments) = fragment_count first).
Proof.
  revert rest w. induction fuel as [|fuel IH]; intros rest w;
    rewrite recv_fragments_eq;
    destruct (Z.ltb_spec (Z.of_nat (length (first :: rest))) (fragment_count first))
      as [Hlt|Hge]; try done.
  - intros [= <- <-]. exists [], []. rewrite app_nil_r, set_inbox_inbox.
    repeat split; [constructor | lia | done].
  - intros (packet & w1 & Hrecv & Hk)%bind_inv_Return.
    apply bind_inv_Return in Hk as (f & w2 & [Hdec ->]%lift_inv_Return & Hk).
    apply sock_recv_inv in Hrecv as (d & _ & Hin & -> & Hw1).
    change ((first :: rest) ++ [f]) with (first :: (rest ++ [f])) in Hk.
    apply IH in Hk as (ds & more & -> & Hin' & Hall & Hw' & Hlen & Hcount).
    rewrite <- app_assoc in Hlen, Hcount. simpl in Hlen, Hcount.
    exists (d :: ds), (f :: more). rewrite <- app_assoc. simpl.
    repeat split.
    + rewrite Hin, Hin'. done.
    + by constructor.
    + rewrite Hw', Hw1. done.
    + done.
    + intros _. destruct more as [|f' more]; [|by apply Hcount].
      simpl in *. rewrite length_app in *. simpl in *. lia.
  - intros [= <- <-]. exists [], []. rewrite app_nil_r, set_inbox_inbox.
    repeat split; [constructor | lia | done].
Qed.

(** What the loop does when the fragments it waits for arrive. *)
Lemma recv_fragments_run ds : ∀ more fuel first rest w tail,
  sock_closed w = false →
  inbox w = ds ++ tail →
  Forall2 continuation ds more →
  Z.of_nat (length (first :: rest ++ more))
  = Z.max (Z.of_nat (length (first :: rest))) (fragment_count first) →
  (length ds ≤ fuel)%nat →
  recv_fragments fuel (first :: rest) w
  = Return (first :: rest ++ more) (set_inbox w tail).
Proof.
  induction ds as [|d ds IH]; intros more fuel first rest w tail Hopen Hin Hall Hcount Hfuel;
    inversion Hall as [|? f ? more' Hd Hall']; subst; rewrite recv_fragments_eq.
  - rewrite app_nil_r in *.
    destruct (Z.ltb_spec (Z.of_nat (length (first :: rest))) (fragment_count first));
      [lia|].
    simpl in Hin. by rewrite <- Hin, set_inbox_inbox.
  - destruct (Z.ltb_spec (Z.of_nat (length (first :: rest))) (fragment_count first))
      as [_|Hge].
    2: { simpl in *. rewrite length_app in *. simpl in *. lia. }
    destruct fuel as [|fuel]; [simpl in Hfuel; lia|].
    assert (Hrecv : sock_recv 4096 w
                    = Return (take (Z.to_nat 4096) d) (set_inbox w (ds ++ tail))).
    { unfold sock_recv. by rewrite Hopen, Hin. }
    rewrite (bind_Return _ _ _ _ _ Hrecv).
    unfold continuation in Hd. rewrite Hd. unfold lift at 1.
    rewrite (bind_Return _ _ _ f _ eq_refl).
    change ((first :: rest) ++ [f]) with (first :: (rest ++ [f])).
    rewrite (IH more' fuel first (rest ++ [f]) _ tail); try done.
    + by rewrite <- app_assoc.
    + rewrite <- app_assoc. simpl in *. rewrite !length_app in *. simpl in *. lia.
    + simpl in Hfuel. lia.
Qed.

Lemma recv_eq conn w packet w1 :
  sock_recv 65535 w = Return packet w1 →
  recv conn w =
  (if decide (take 4 packet = HEADER_SIMPLE) then
     logger_debug (ReceivedSingle (drop 4 packet)) ;;;
     ret (drop 4 packet)
   else if decide (take 4 packet = HEADER_MULTI) then
     first <- lift (decode_fragment (drop 4 packet)) ;;
     fragments <- recv_fragments (Z.to_nat (fragment_count first)) [first] ;;
     logger_debug (ReceivedMulti (length fragments) (reassemble fragments)) ;;;
     ret (reassemble fragments)
   else raise (BrokenMessageError
                 (String.append "Invalid packet header: " (bytes_repr (take 4 packet)))))
    w1.
Proof. intros Hrecv. unfold recv. by rewrite (bind_Return _ _ _ _ _ Hrecv). Qed.

(** [recv] always comes to an end: with a buffer or with an exception. *)
Lemma recv_terminates conn w : terminates (recv conn w).
Proof.
  unfold recv. apply bind_terminates; [apply sock_recv_terminates|].
  intros packet w1 _. repeat case_decide; try done.
  apply bind_terminates; [apply lift_terminates|]. intros first w2 _.
  apply bind_terminates; [|done].
  apply recv_fragments_terminates. simpl. lia.
Qed.

(** C3. When the datagram that [recv] receives starts with the simple
    marker FF FF FF FF, [recv] returns the bytes of the datagram after
    these four; it has written them to the log and done nothing else. *)
Theorem recv_simple conn w packet w1 :
  sock_recv 65535 w = Return packet w1 →
  take 4 packet = HEADER_SIMPLE →
  recv conn w = Return (drop 4 packet) (add_log w1 (ReceivedSingle (drop 4 packet))).
Proof.
  intros Hrecv Hheader. rewrite (recv_eq _ _ _ _ Hrecv).
  by rewrite decide_True.
Qed.

(** The same, of the datagram on the wire: a datagram of UDP has at most
    65535 bytes, so the buffer of the first receive holds all of it. *)
Corollary recv_simple_datagram conn w d rest :
  sock_closed w = false → inbox w = d :: rest →
  Z.of_nat (length d) <= 65535 →
  take 4 d = HEADER_SIMPLE →
  recv conn w
  = Return (drop 4 d) (add_log (set_inbox w rest) (ReceivedSingle (drop 4 d))).
Proof.
  intros Hopen Hin Hlen Hheader.
  assert (Hrecv : sock_recv 65535 w = Return d (set_inbox w rest)).
  { unfold sock_recv. rewrite Hopen, Hin. by rewrite take_ge by lia. }
  rewrite (recv_eq _ _ _ _ Hrecv). by rewrite decide_True.
Qed.

(** A first fragment that declares no fragments, or fewer, is not waited
    on: [recv] returns what this one fragment makes. *)
Lemma recv_multi_alone conn w packet w1 first :
  sock_recv 65535 w = Return packet w1 →
  take 4 packet = HEADER_MULTI →
  decode_fragment (drop 4 packet) = inr first →
  fragment_count first <= 1 →
  recv conn w
  = Return (reassemble [first]) (add_log w1 (ReceivedMulti 1 (reassemble [first]))).
Proof.
  intros Hrecv Hheader Hfirst Hcount. rewrite (recv_eq _ _ _ _ Hrecv).
  rewrite decide_False by (rewrite Hheader; discriminate).
  rewrite decide_True by done.
  rewrite Hfirst. unfold lift at 1.
  rewrite (bind_Return _ _ _ first _ eq_refl).
  rewrite recv_fragments_eq.
  destruct (Z.ltb_spec (Z.of_nat (length [first])) (fragment_count first));
    [simpl in *; lia | done].
Qed.

(** C7. When the first four bytes of the datagram that [recv] receives
    (all of it, when it is shorter) are neither the simple marker nor
    the multi marker, [recv] raises [BrokenMessageError] and returns no
    buffer. The message holds the [repr] of these bytes, which no other
    bytes have. *)
Theorem recv_invalid_header conn w packet w1 :
  sock_recv 65535 w = Return packet w1 →
  take 4 packet ≠ HEADER_SIMPLE →
  take 4 packet ≠ HEADER_MULTI →
  recv conn w
  = Raise (BrokenMessageError
             (String.append "Invalid packet header: " (bytes_repr (take 4 packet)))) w1
  ∧ ∀ header, bytes_repr header = bytes_repr (take 4 packet) → header = take 4 packet.
Proof.
  intros Hrecv Hs Hm. rewrite (recv_eq _ _ _ _ Hrecv).
  rewrite !decide_False by done. split; [done|].
  intros header. apply bytes_repr_inj.
Qed.

(** The multi-packet branch, once its fragments are collected. *)
Lemma recv_multi conn w packet w1 first fragments w2 :
  sock_recv 65535 w = Return packet w1 →
  take 4 packet = HEADER_MULTI →
  decode_fragment (drop 4 packet) = inr first →
  recv_fragments (Z.to_nat (fragment_count first)) [first] w1 = Return fragments w2 →
  recv conn w
  = Return (reassemble fragments)
      (add_log w2 (ReceivedMulti (length fragments) (reassemble fragments))).
Proof.
  intros Hrecv Hheader Hfirst Hloop. rewrite (recv_eq _ _ _ _ Hrecv).
  rewrite decide_False by (rewrite Hheader; discriminate).
  rewrite decide_True by done.
  rewrite Hfirst. unfold lift at 1.
  rewrite (bind_Return _ _ _ first _ eq_refl).
  by rewrite (bind_Return _ _ _ _ _ Hloop).
Qed.

Lemma recv_multi_inv conn w packet w1 buf w' :
  sock_recv 65535 w = Return packet w1 →
  take 4 packet = HEADER_MULTI →
  recv conn w = Return buf w' →
  ∃ first fragments w2,
    decode_fragment (drop 4 packet) = inr first
    ∧ recv_fragments (Z.to_nat (fragment_count first)) [first] w1 = Return fragments w2
    ∧ buf = reassemble fragments
    ∧ w' = add_log w2 (ReceivedMulti (length fragments) buf).
Proof.
  intros Hrecv Hheader. rewrite (recv_eq _ _ _ _ Hrecv).
  rewrite decide_False by (rewrite Hheader; discriminate).
  rewrite decide_True by done.
  intros (first & w2 & [Hfirst ->]%lift_inv_Return & Hk)%bind_inv_Return.
  apply bind_inv_Return in Hk as (fragments & w3 & Hloop & [= <- <-]).
  eauto 10.
Qed.
(** C6. A reassembled buffer that begins with the simple marker
    FF FF FF FF loses these four bytes, once: what is returned is the
    rest, whatever the rest begins with. A reassembled buffer that does
    not begin with the marker is returned as it is. *)
Theorem recv_multi_strips_once conn w packet w1 first fragments w2 :
  sock_recv 65535 w = Return packet w1 →
  take 4 packet = HEADER_MULTI →
  decode_fragment (drop 4 packet) = inr first →
  recv_fragments (Z.to_nat (fragment_count first)) [first] w1 = Return fragments w2 →
  (∀ rest, join_fragments fragments = HEADER_SIMPLE ++ rest →
     recv conn w
     = Return rest (add_log w2 (ReceivedMulti (length fragments) rest)))
  ∧ (take 4 (join_fragments fragments) ≠ HEADER_SIMPLE →
     recv conn w
     = Return (join_fragments fragments)
         (add_log w2 (ReceivedMulti (length fragments) (join_fragments fragments)))).
Proof.
  intros Hrecv Hheader Hfirst Hloop.
  rewrite (recv_multi _ _ _ _ _ _ _ Hrecv Hheader Hfirst Hloop).
  unfold reassemble. split.
  - intros rest ->. by rewrite strip_header_marker.
  - intros Hne. by rewrite strip_header_other.
Qed.

(** C5, as the code has it. The count is the one of the first fragment
    received, whatever its id. A buffer that [recv] returns is made of
    exactly that many fragments, or of the first fragment alone when it
    declares none: the first one and the ones decoded from the datagrams
    that arrived next, put in ascending order of their ids. And when that
    many fragments do arrive, [recv] returns the buffer made of them. *)
Theorem recv_multi_collects_count conn w packet w1 first :
  sock_recv 65535 w = Return packet w1 →
  take 4 packet = HEADER_MULTI →
  decode_fragment (drop 4 packet) = inr first →
  (∀ buf w', recv conn w = Return buf w' →
     ∃ ds more,
       inbox w1 = ds ++ inbox w'
       ∧ Forall2 continuation ds more
       ∧ Z.of_nat (length (first :: more)) = Z.max 1 (fragment_count first)
       ∧ StronglySorted (key_le fragment_id) (sort_by_key fragment_id (first :: more))
       ∧ sort_by_key fragment_id (first :: more) ≡ₚ first :: more
       ∧ buf = strip_header
                 (bytes_join (payload <$> sort_by_key fragment_id (first :: more))))
  ∧ (∀ ds more tail,
       inbox w1 = ds ++ tail →
       Forall2 continuation ds more →
       Z.of_nat (length (first :: more)) = Z.max 1 (fragment_count first) →
       recv conn w
       = Return (reassemble (first :: more))
           (add_log (set_inbox w1 tail)
              (ReceivedMulti (length (first :: more)) (reassemble (first :: more))))).
Proof.
  intros Hrecv Hheader Hfirst. split.
  - intros buf w' Hret.
    destruct (recv_multi_inv _ _ _ _ _ _ Hrecv Hheader Hret)
      as (first' & fragments & w2 & Hfirst' & Hloop & -> & ->).
    assert (first' = first) as -> by congruence.
    apply recv_fragments_inv in Hloop
      as (ds & more & -> & Hin & Hall & _ & Hlen & Hmore).
    exists ds, more. simpl app in *. repeat split; try done.
    + destruct more as [|f more]; [simpl in *; lia|].
      specialize (Hmore ltac:(done)). simpl in *. lia.
    + apply sort_by_key_sorted.
    + apply sort_by_key_perm.
  - intros ds more tail Hin Hall Hlen.
    apply (recv_multi _ _ _ _ _ _ _ Hrecv Hheader Hfirst).
    apply (recv_fragments_run ds more _ first [] w1 tail); try done.
    + by apply sock_recv_closed in Hrecv.
    + apply Forall2_length in Hall. simpl in Hlen. lia.
Qed.

(** X16. With the datagrams of a response on the wire, each one fitting
    the buffer of 4096 bytes that the loop receives into, all declaring
    their number for count and no two the same id, [recv] returns the
    same buffer whatever the order they arrive in. *)
Theorem recv_order_independent conn w w' ds ds' fragments tail :
  sock_closed w = false → inbox w = ds ++ tail →
  sock_closed w' = false → inbox w' = ds' ++ tail →
  ds ≡ₚ ds' → ds ≠ [] →
  Forall (λ d, Z.of_nat (length d) <= 4096 ∧ take 4 d = HEADER_MULTI) ds →
  Forall2 (λ d f, decode_fragment (drop 4 d) = inr f) ds fragments →
  Forall (λ f, fragment_count f = Z.of_nat (length ds)) fragments →
  NoDup (fragment_id <$> fragments) →
  recv conn w
  = Return (reassemble fragments)
      (add_log (set_inbox w tail)
         (ReceivedMulti (length fragments) (reassemble fragments)))
  ∧ recv conn w'
    = Return (reassemble fragments)
        (add_log (set_inbox w' tail)
           (ReceivedMulti (length fragments) (reassemble fragments))).
Proof.
  intros Hopen Hin Hopen' Hin' Hperm Hne Hsize Hdec Hcount Hnd.
  assert (Hgo : ∀ w ds fragments,
    sock_closed w = false → inbox w = ds ++ tail → ds ≠ [] →
    Forall (λ d, Z.of_nat (length d) <= 4096 ∧ take 4 d = HEADER_MULTI) ds →
    Forall2 (λ d f, decode_fragment (drop 4 d) = inr f) ds fragments →
    Forall (λ f, fragment_count f = Z.of_nat (length ds)) fragments →
    recv conn w
    = Return (reassemble fragments)
        (add_log (set_inbox w tail)
           (ReceivedMulti (length fragments) (reassemble fragments)))).
  { clear. intros w ds fragments Hopen Hin Hne Hsize Hdec Hcount.
    destruct Hdec as [|d first ds more Hfirst Hdec]; [done|].
    apply Forall_cons in Hsize as [[Hd Hheader] Hsize].
    apply Forall_cons in Hcount as [Hc Hcount].
    assert (Hrecv : sock_recv 65535 w = Return d (set_inbox w (ds ++ tail))).
    { unfold sock_recv. rewrite Hopen, Hin. simpl. by rewrite take_ge by lia. }
    rewrite (recv_multi _ _ _ _ _ (first :: more) (set_inbox w tail)
               Hrecv Hheader Hfirst); [done|].
    rewrite (recv_fragments_run ds more _ first [] (set_inbox w (ds ++ tail)) tail);
      try done.
    - clear -Hsize Hdec. induction Hdec as [|d f ds more Hd Hdec IH]; [constructor|].
      apply Forall_cons in Hsize as [[Hlen _] Hsize]. constructor; [|by apply IH].
      unfold continuation. by rewrite take_ge by lia.
    - apply Forall2_length in Hdec. simpl in *. lia.
    - rewrite Hc. simpl. lia. }
  split; [by apply (Hgo w ds fragments)|].
  destruct (Permutation_Forall2 Hperm Hdec) as (fragments' & Hperm' & Hdec').
  assert (reassemble fragments = reassemble fragments') as ->.
  { unfold reassemble, join_fragments.
    by rewrite (sort_by_key_perm_invariant fragment_id _ _ Hperm' Hnd). }
  rewrite (Permutation_length Hperm').
  apply (Hgo w' ds' fragments'); try done.
  - intros ->. by apply Permutation_nil_r in Hperm.
  - by rewrite <- Hperm.
  - assert (length ds' = length ds) as -> by (by rewrite Hperm).
    by rewrite <- Hperm'.
Qed.

(** What [recv] makes of the datagrams of one response when each of them
    fits the buffer of the loop: all of them are taken, in the order
    they arrive in. *)
Lemma recv_collects conn w ds fragments tail :
  sock_closed w = false → inbox w = ds ++ tail → ds ≠ [] →
  Forall (λ d, Z.of_nat (length d) <= 4096 ∧ take 4 d = HEADER_MULTI) ds →
  Forall2 (λ d f, decode_fragment (drop 4 d) = inr f) ds fragments →
  Forall (λ f, fragment_count f = Z.of_nat (length ds)) fragments →
  recv conn w
  = Return (reassemble fragments)
      (add_log (set_inbox w tail)
         (ReceivedMulti (length fragments) (reassemble fragments))).
Proof.
  intros Hopen Hin Hne Hsize Hdec Hcount.
  destruct Hdec as [|d first ds more Hfirst Hdec]; [done|].
  apply Forall_cons in Hsize as [[Hd Hheader] Hsize].
  apply Forall_cons in Hcount as [Hc Hcount].
  assert (Hrecv : sock_recv 65535 w = Return d (set_inbox w (ds ++ tail))).
  { unfold sock_recv. rewrite Hopen, Hin. simpl. by rewrite take_ge by lia. }
  rewrite (recv_multi _ _ _ _ _ (first :: more) (set_inbox w tail)
             Hrecv Hheader Hfirst); [done|].
  rewrite (recv_fragments_run ds more _ first [] (set_inbox w (ds ++ tail)) tail);
    try done.
  - clear -Hsize Hdec. induction Hdec as [|d f ds more Hd Hdec IH]; [constructor|].
    apply Forall_cons in Hsize as [[Hlen _] Hsize]. constructor; [|by apply IH].
    unfold continuation. by rewrite take_ge by lia.
  - apply Forall2_length in Hdec. simpl in *. lia.
  - rewrite Hc. simpl. lia.
Qed.

(** C4, as the code has it. The fragments of a response: as many
    datagrams as each of them declares for count, with distinct fragment
    ids, each datagram of at most 4096 bytes, the size of the buffer the
    loop of [recv] receives into. In whatever order these datagrams
    arrive, [recv] takes them all and returns one and the same buffer:
    the payloads in ascending order of the fragment ids, without a
    leading simple header. *)
Theorem recv_arrival_order_independent conn w ds fragments tail :
  sock_closed w = false → ds ≠ [] →
  Forall (λ d, Z.of_nat (length d) <= 4096 ∧ take 4 d = HEADER_MULTI) ds →
  Forall2 (λ d f, decode_fragment (drop 4 d) = inr f) ds fragments →
  Forall (λ f, fragment_count f = Z.of_nat (length ds)) fragments →
  NoDup (fragment_id <$> fragments) →
  ∀ ds', ds' ≡ₚ ds →
    recv conn (set_inbox w (ds' ++ tail))
    = Return (reassemble fragments)
        (add_log (set_inbox w tail)
           (ReceivedMulti (length ds) (reassemble fragments))).
Proof.
  intros Hopen Hne Hsize Hdec Hcount Hnd ds' Hperm.
  symmetry in Hperm.
  destruct (Permutation_Forall2 Hperm Hdec) as (fragments' & Hperm' & Hdec').
  assert (reassemble fragments = reassemble fragments') as ->.
  { unfold reassemble, join_fragments.
    by rewrite (sort_by_key_perm_invariant fragment_id _ _ Hperm' Hnd). }
  assert (length ds = length fragments') as ->.
  { rewrite (Permutation_length Hperm). by apply Forall2_length in Hdec'. }
  rewrite (recv_collects conn (set_inbox w (ds' ++ tail)) ds' fragments' tail);
    try done.
  - intros ->. by apply Permutation_nil_r in Hperm.
  - by rewrite <- Hperm.
  - assert (length ds' = length ds) as -> by (by rewrite Hperm).
    by rewrite <- Hperm'.
Qed.
End transport_facts.

(** C5 as the spec has it fails: a first fragment may declare no fragments
    at all. Of the datagram FE FF FF FF 07 00 49 the sample decoder makes
    fragment 7 of 0; the loop has nothing to wait for and [recv] returns
    the payload of this one fragment. *)
Lemma recv_collects_count_counterexample :
  ¬ (∀ (I : Imports) conn w packet w1 first buf w',
       sock_recv 65535 w = Return packet w1 →
       take 4 packet = HEADER_MULTI →
       decode_fragment (drop 4 packet) = inr first →
       recv conn w = Return buf w' →
       ∃ fragments,
         Z.of_nat (length fragments) = fragment_count first
         ∧ buf = reassemble fragments).
Proof.
  intros Hclaim.
  pose (w := sample_world [[xfe; xff; xff; xff; x07; x00; x49]]).
  destruct (Hclaim sample_imports sample_conn w
              [xfe; xff; xff; xff; x07; x00; x49] (set_inbox w [])
              (mkFragment 7 0 [x49]) [x49]
              (add_log (set_inbox w []) (ReceivedMulti 1 [x49])))
    as (fragments & Hlen & Hbuf); try reflexivity.
  destruct fragments; [discriminate Hbuf | discriminate Hlen].
Qed.

(** C4 as the claim has it fails: a datagram that does not fit the
    buffer of the loop is cut when it does not arrive first. Of a
    fragment 0 with a payload of 5000 bytes and a fragment 1 with a
    payload of one byte, [recv] returns 5001 bytes when fragment 0
    arrives first, and 4091 bytes when it arrives second. *)
Lemma recv_arrival_order_counterexample :
  ¬ (∀ (I : Imports) conn w w' ds ds' fragments,
       sock_closed w = false → inbox w = ds →
       sock_closed w' = false → inbox w' = ds' →
       ds ≡ₚ ds' →
       Forall (λ d, take 4 d = HEADER_MULTI) ds →
       Forall2 (λ d f, decode_fragment (drop 4 d) = inr f) ds fragments →
       Forall (λ f, fragment_count f = Z.of_nat (length ds)) fragments →
       NoDup (fragment_id <$> fragments) →
       result (recv conn w) = result (recv conn w')).
Proof.
  intros Hclaim.
  pose (large := [xfe; xff; xff; xff; x00; x02] ++ replicate 5000 x41).
  pose (small := [xfe; xff; xff; xff; x01; x02; x42]).
  specialize (Hclaim sample_imports sample_conn
                (sample_world [large; small]) (sample_world [small; large])
                [large; small] [small; large]
                [mkFragment 0 2 (replicate 5000 x41); mkFragment 1 2 [x42]]
                eq_refl eq_refl eq_refl eq_refl (Permutation_swap _ _ _)).
  apply (f_equal (λ r, match r with
                       | Some (inr buf) => length buf
                       | _ => 0%nat
                       end)) in Hclaim.
  - vm_compute in Hclaim. discriminate Hclaim.
  - repeat constructor.
  - repeat constructor.
  - repeat constructor.
  - apply (bool_decide_unpack _). by vm_compute.
Qed.

Lemma recv_arrival_order_independent_witness :
  recv (imports := sample_imports) sample_conn
    (set_inbox (sample_world [])
       ([[xfe; xff; xff; xff; x02; x03; x43]; [xfe; xff; xff; xff; x00; x03; x41];
         [xfe; xff; xff; xff; x01; x03; x42]] ++ [[xff; xff; xff; xff]]))
  = Return [x41; x42; x43]
      (add_log (set_inbox (sample_world []) [[xff; xff; xff; xff]])
         (ReceivedMulti 3 [x41; x42; x43])).
Proof.
  apply (recv_arrival_order_independent (imports := sample_imports) sample_conn
           (sample_world [])
           [[xfe; xff; xff; xff; x00; x03; x41]; [xfe; xff; xff; xff; x01; x03; x42];
            [xfe; xff; xff; xff; x02; x03; x43]]
           [mkFragment 0 3 [x41]; mkFragment 1 3 [x42]; mkFragment 2 3 [x43]]
           [[xff; xff; xff; xff]]).
  - reflexivity.
  - discriminate.
  - repeat constructor; by vm_compute.
  - repeat constructor.
  - repeat constructor.
  - apply (bool_decide_unpack _). by vm_compute.
  - apply (Permutation_cons_append [_; _]).
Defined.

Lemma recv_simple_witness :
  recv (imports := sample_imports) sample_conn (sample_world [[xff; xff; xff; xff; x49; x01]])
  = Return [x49; x01] (add_log (sample_world []) (ReceivedSingle [x49; x01])).
Proof.
  apply (recv_simple (imports := sample_imports) sample_conn
           (sample_world [[xff; xff; xff; xff; x49; x01]])
           [xff; xff; xff; xff; x49; x01] (sample_world [])); reflexivity.
Defined.

Lemma recv_invalid_header_witness :
  recv (imports := sample_imports) sample_conn (sample_world [[xfe; xff; x41]])
  = Raise (BrokenMessageError "Invalid packet header: b'\xfe\xffA'") (sample_world []).
Proof.
  refine (proj1 (recv_invalid_header (imports := sample_imports) sample_conn
           (sample_world [[xfe; xff; x41]]) [xfe; xff; x41] (sample_world []) _ _ _));
    [reflexivity | discriminate | discriminate].
Defined.

Lemma recv_multi_strips_once_witness :
  recv (imports := sample_imports) sample_conn
    (sample_world [[xfe; xff; xff; xff; x01; x02; xff; xff; x49];
                   [xfe; xff; xff; xff; x00; x02; xff; xff; xff; xff]])
  = Return [xff; xff; x49] (add_log (sample_world []) (ReceivedMulti 2 [xff; xff; x49])).
Proof.
  refine (proj1 (recv_multi_strips_once (imports := sample_imports) sample_conn
           (sample_world [[xfe; xff; xff; xff; x01; x02; xff; xff; x49];
                          [xfe; xff; xff; xff; x00; x02; xff; xff; xff; xff]])
           [xfe; xff; xff; xff; x01; x02; xff; xff; x49]
           (sample_world [[xfe; xff; xff; xff; x00; x02; xff; xff; xff; xff]])
           (mkFragment 1 2 [xff; xff; x49])
           [mkFragment 1 2 [xff; xff; x49]; mkFragment 0 2 [xff; xff; xff; xff]]
           (sample_world []) _ _ _ _) [xff; xff; x49] _); reflexivity.
Defined.

Lemma recv_multi_collects_count_witness :
  recv (imports := sample_imports) sample_conn
    (sample_world [[xfe; xff; xff; xff; x01; x02; x42]; [xfe; xff; xff; xff; x00; x02; x41];
                   [xff; xff; xff; xff]])
  = Return [x41; x42]
      (add_log (sample_world [[xff; xff; xff; xff]]) (ReceivedMulti 2 [x41; x42])).
Proof.
  refine (proj2 (recv_multi_collects_count (imports := sample_imports) sample_conn
           (sample_world [[xfe; xff; xff; xff; x01; x02; x42];
                          [xfe; xff; xff; xff; x00; x02; x41]; [xff; xff; xff; xff]])
           [xfe; xff; xff; xff; x01; x02; x42]
           (sample_world [[xfe; xff; xff; xff; x00; x02; x41]; [xff; xff; xff; xff]])
           (mkFragment 1 2 [x42]) _ _ _)
           [[xfe; xff; xff; xff; x00; x02; x41]] [mkFragment 0 2 [x41]]
           [[xff; xff; xff; xff]] _ _ _);
    try reflexivity.
  repeat constructor.
Defined.

(** ** [A2SStream.send] and [A2SStream.request] *)

Lemma same_session_refl w : same_session w w.
Proof. done. Qed.

Lemma same_session_trans w1 w2 w3 :
  same_session w1 w2 → same_session w2 w3 → same_session w1 w3.
Proof. unfold same_session. intros (-> & -> & -> & ->) (-> & -> & -> & ->). done. Qed.

Section request_facts.
Context {imports : Imports}.
Implicit Types (conn : A2SStream) (w : World).

Lemma send_open conn data w :
  sock_closed w = false →
  send conn data w
  = Return tt (set_sent (add_log w (Sending data))
                        (sent w ++ [(address conn, HEADER_SIMPLE ++ data)])).
Proof.
  intros Hopen. unfold send, bind, logger_debug, sock_sendto. simpl. by rewrite Hopen.
Qed.

Lemma send_closed conn data w :
  sock_closed w = true →
  send conn data w = Raise closed_socket_error (add_log w (Sending data)).
Proof.
  intros Hc. unfold send, bind, logger_debug, sock_sendto. simpl. by rewrite Hc.
Qed.

(** The loop of [recv] only takes datagrams from the inbox. *)
Lemma recv_fragments_world fuel : ∀ fragments w w',
  world_of (recv_fragments fuel fragments w) = Some w' →
  ∃ i, w' = set_inbox w i.
Proof.
  induction fuel as [|fuel IH]; intros [|first rest] w w'.
  1, 3: intros [= <-]; exists (inbox w); by rewrite set_inbox_inbox.
  all: rewrite recv_fragments_eq;
    destruct (Z.of_nat (length (first :: rest)) <? fragment_count first).
  1: done.
  1, 3: intros [= <-]; exists (inbox w); by rewrite set_inbox_inbox.
  unfold bind at 1. destruct (sock_recv 4096 w) as [packet w1|e w1|] eqn:Hrecv; [| |done].
  - apply sock_recv_inv in Hrecv as (d & _ & _ & _ & Hw1).
    unfold bind at 1. destruct (decode_fragment (drop 4 packet)) as [e|f]; simpl.
    + intros [= <-]. eauto.
    + intros Hk. apply IH in Hk as [i ->]. rewrite Hw1. by exists i.
  - apply sock_recv_raise in Hrecv as ->. intros [= <-].
    exists (inbox w). by rewrite set_inbox_inbox.
Qed.

(** [recv] takes datagrams from the inbox and writes at most one
    record, of a response, to the log. *)
Lemma recv_world conn w w' :
  world_of (recv conn w) = Some w' →
  same_session w w' ∧ sent w' = sent w
  ∧ (log w' = log w ∨ ∃ r, is_received r = true ∧ log w' = log w ++ [r]).
Proof.
  unfold recv, bind at 1.
  destruct (sock_recv 65535 w) as [packet w1|e w1|] eqn:Hrecv; [| |done].
  - apply sock_recv_inv in Hrecv as (d & _ & _ & _ & Hw1).
    repeat case_decide.
    + intros [= <-]. rewrite Hw1. repeat split. right. eexists. split; [|reflexivity]. done.
    + unfold bind at 1. destruct (decode_fragment (drop 4 packet)) as [e|f]; simpl.
      { intros [= <-]. rewrite Hw1. repeat split. by left. }
      unfold bind at 1.
      destruct (recv_fragments _ _ w1) as [fragments w2|e w2|] eqn:Hloop; [| |done].
      * assert (∃ i, w2 = set_inbox w1 i) as [i ->]
          by (apply (recv_fragments_world (Z.to_nat (fragment_count f)) [f]);
              by rewrite Hloop).
        intros [= <-]. rewrite Hw1. repeat split. right. eexists. split; [|reflexivity]. done.
      * assert (∃ i, w2 = set_inbox w1 i) as [i ->]
          by (apply (recv_fragments_world (Z.to_nat (fragment_count f)) [f]);
              by rewrite Hloop).
        intros [= <-]. rewrite Hw1. repeat split. by left.
    + intros [= <-]. rewrite Hw1. repeat split. by left.
  - apply sock_recv_raise in Hrecv as ->. intros [= <-]. repeat split. by left.
Qed.

(** One [request] is one datagram sent, then a response, or an
    exception instead. *)
Lemma request_world conn payload w w' :
  world_of (request conn payload w) = Some w' →
  same_session w w'
  ∧ (sock_closed w = false →
     sent w' = sent w ++ [(address conn, HEADER_SIMPLE ++ payload)])
  ∧ (log w' = log w ++ [Sending payload]
     ∨ ∃ r, is_received r = true ∧ log w' = log w ++ [Sending payload; r]).
Proof.
  unfold request, bind at 1. destruct (sock_closed w) eqn:Hc.
  - rewrite send_closed by done. intros [= <-]. repeat split; [done | by left].
  - rewrite send_open by done. intros (Hs & Hsent & Hlog)%recv_world.
    split; [|split].
    + eapply same_session_trans; [|exact Hs]. done.
    + intros _. by rewrite Hsent.
    + destruct Hlog as [->| (r & Hr & ->)]; [by left|].
      right. exists r. split; [done|]. simpl. by rewrite <- app_assoc.
Qed.

Lemma recv_Return_log conn w buf w' :
  recv conn w = Return buf w' →
  ∃ r, is_received r = true ∧ log w' = log w ++ [r].
Proof.
  intros Hret.
  destruct (recv_world conn w w') as (_ & _ & [Hlog|Hlog]); [by rewrite Hret| |done].
  exfalso. revert Hret Hlog. unfold recv, bind at 1.
  destruct (sock_recv 65535 w) as [packet w1|e w1|] eqn:Hrecv; [|done..].
  apply sock_recv_inv in Hrecv as (d & _ & _ & _ & Hw1).
  assert (Hnil : ∀ (l : list LogRecord) r, l ++ [r] ≠ l).
  { intros l r Hl. apply (f_equal length) in Hl. rewrite length_app in Hl.
    simpl in Hl. lia. }
  repeat case_decide.
  - intros [= <- <-]. rewrite Hw1. simpl. apply Hnil.
  - unfold bind at 1. destruct (decode_fragment (drop 4 packet)) as [e|f]; [done|].
    simpl. unfold bind at 1.
    destruct (recv_fragments _ _ w1) as [fragments w2|e w2|] eqn:Hloop; [|done..].
    assert (∃ i, w2 = set_inbox w1 i) as [i ->]
      by (apply (recv_fragments_world (Z.to_nat (fragment_count f)) [f]);
          by rewrite Hloop).
    intros [= <- <-]. rewrite Hw1. simpl. apply Hnil.
  - done.
Qed.

Lemma request_Return_log conn payload w resp w' :
  request conn payload w = Return resp w' →
  ∃ r, is_received r = true ∧ log w' = log w ++ [Sending payload; r].
Proof.
  unfold request, bind at 1. destruct (sock_closed w) eqn:Hc.
  - by rewrite send_closed.
  - rewrite send_open by done. intros (r & Hr & Hlog)%recv_Return_log.
    exists r. split; [done|]. rewrite Hlog. simpl. by rewrite <- app_assoc.
Qed.

Lemma request_terminates conn payload w : terminates (request conn payload w).
Proof.
  unfold request. apply bind_terminates; [|intros; apply recv_terminates].
  unfold send, bind, logger_debug, sock_sendto. simpl. by destruct (sock_closed w).
Qed.
End request_facts.

(** ** The byte reader *)

Lemma read_uint8_cons b rest enc :
  read_uint8 (mkReader (b :: rest) enc) = inr (byte_val b, mkReader rest enc).
Proof.
  unfold read_uint8, reader_read. cbn [stream text_encoding].
  rewrite bool_decide_eq_false_2 by (simpl; lia).
  simpl. by rewrite Z.add_0_r, drop_0.
Qed.

Lemma read_uint8_nil enc : read_uint8 (mkReader [] enc) = inl BufferExhaustedError.
Proof. reflexivity. Qed.

Lemma read_uint32_le32 c rest enc :
  0 <= c < 2 ^ 32 →
  read_uint32 (mkReader (le32 c ++ rest) enc) = inr (c, mkReader rest enc).
Proof.
  intros Hc. unfold read_uint32, reader_read. cbn [stream text_encoding].
  rewrite bool_decide_eq_false_2 by (rewrite length_app, length_le32; lia).
  rewrite (take_app_length' (le32 c)), (drop_app_length' (le32 c)) by done.
  by rewrite le_val_le32.
Qed.

(** ** [request_sync_impl] *)

Section driver_facts.
Context {imports : Imports} {R : Type}.
Implicit Types (conn : A2SStream) (a2s_proto : Protocol R) (w : World).
Implicit Types (challenge retries : Z) (ping : option float).

(** What is left of an attempt once [request] has returned. *)
Lemma request_sync_impl_response fuel conn encoding a2s_proto challenge retries ping
    w resp_data w1 :
  request conn (serialize_request a2s_proto challenge) (tick w) = Return resp_data w1 →
  request_sync_impl (S fuel) conn encoding a2s_proto challenge retries ping w
  = (rt <- lift (read_uint8 (mkReader resp_data encoding)) ;;
     if rt.1 =? A2S_CHALLENGE_RESPONSE then
       if retries >=? DEFAULT_RETRIES then
         raise (BrokenMessageError "Server keeps sending challenge responses")
       else
         ch <- lift (read_uint32 rt.2) ;;
         request_sync_impl fuel conn encoding a2s_proto ch.1 (retries + 1)
           (attempt_ping retries ping w w1)
     else if negb (validate_response_type a2s_proto rt.1) then
       raise (BrokenMessageError (String.append "Invalid response type: " (hex rt.1)))
     else
       call_deserialize a2s_proto rt.2 rt.1 (attempt_ping retries ping w w1))
    (tick w1).
Proof.
  intros Hreq. cbn [request_sync_impl]. unfold bind at 1. cbn [time_monotonic].
  unfold bind at 1. rewrite Hreq. unfold bind at 1. cbn [time_monotonic].
  reflexivity.
Qed.

Lemma request_sync_impl_no_response fuel conn encoding a2s_proto challenge retries ping
    w e w1 :
  request conn (serialize_request a2s_proto challenge) (tick w) = Raise e w1 →
  request_sync_impl (S fuel) conn encoding a2s_proto challenge retries ping w
  = Raise e w1.
Proof.
  intros Hreq. cbn [request_sync_impl]. unfold bind at 1. cbn [time_monotonic].
  unfold bind at 1. by rewrite Hreq.
Qed.
Lemma call_deserialize_world a2s_proto reader response_type ping w :
  ∃ o, call_deserialize a2s_proto reader response_type ping w = o
       ∧ terminates o
       ∧ world_of o = Some (log_deserialize w (reader, response_type, ping))
       ∧ ∀ r w', o = Return r w' →
           deserialize_response a2s_proto reader response_type ping = inr r.
Proof.
  unfold call_deserialize. eexists. split; [done|].
  destruct (deserialize_response _ _ _ _); simpl; repeat split; try done.
  by intros ? ? [= -> _].
Qed.

Lemma request_sync_impl_cases fuel conn encoding a2s_proto challenge retries ping w :
  attempt_case fuel conn encoding a2s_proto challenge retries ping w
    (request_sync_impl (S fuel) conn encoding a2s_proto challenge retries ping w).
Proof.
  pose proof (request_terminates conn (serialize_request a2s_proto challenge) (tick w))
    as Hterm.
  destruct (request conn (serialize_request a2s_proto challenge) (tick w))
    as [resp w1|e w1|] eqn:Hreq; [| |done].
  2: { rewrite (request_sync_impl_no_response _ _ _ _ _ _ _ _ _ _ Hreq).
       by constructor. }
  rewrite (request_sync_impl_response _ _ _ _ _ _ _ _ _ _ Hreq).
  destruct resp as [|b rest].
  { rewrite read_uint8_nil. by constructor. }
  rewrite read_uint8_cons. unfold lift at 1.
  rewrite (bind_Return _ _ _ (byte_val b, mkReader rest encoding) _ eq_refl).
  cbn [fst snd].
  destruct (Z.eqb_spec (byte_val b) A2S_CHALLENGE_RESPONSE) as [Hb|Hb].
  - destruct (Z.geb_spec retries DEFAULT_RETRIES) as [Hr|Hr].
    { eapply challenge_again; [done..|lia]. }
    unfold read_uint32, reader_read. cbn [stream text_encoding].
    case_bool_decide as Hlen.
    + eapply challenge_short; [done..|lia].
    + unfold lift at 1.
      rewrite (bind_Return _ _ _ (le_val (take 4 rest), mkReader (drop 4 rest) encoding)
                 _ eq_refl).
      cbn [fst]. eapply challenge_retry; [done..|lia].
  - destruct (validate_response_type a2s_proto (byte_val b)) eqn:Hv; cbn [negb].
    + by eapply valid_type.
    + by eapply invalid_type.
Qed.

(** The cases of one attempt, with the names the proofs below use. *)
Ltac attempt_cases fuel conn encoding a2s_proto challenge retries ping w :=
  destruct (request_sync_impl_cases fuel conn encoding a2s_proto challenge retries ping w)
    as [e w1 Hreq|w1 Hreq|b rest w1 Hreq Hb Hr|b rest w1 Hreq Hb Hr Hlen
       |b rest w1 Hreq Hb Hr Hlen|b rest w1 Hreq Hb Hv|b rest w1 Hreq Hb Hv].

(** A call comes to an end when it may make the retries that are left. *)
Lemma request_sync_impl_terminates fuel : ∀ conn encoding a2s_proto challenge retries ping w,
  (Z.to_nat (DEFAULT_RETRIES - retries) < fuel)%nat →
  terminates (request_sync_impl fuel conn encoding a2s_proto challenge retries ping w).
Proof.
  induction fuel as [|fuel IH]; intros conn encoding a2s_proto challenge retries ping w Hfuel;
    [lia|].
  destruct (request_sync_impl_cases fuel conn encoding a2s_proto challenge retries ping w);
    try done.
  - apply IH. lia.
  - by destruct (call_deserialize_world a2s_proto (mkReader rest encoding) (byte_val b)
                   (attempt_ping retries ping w w1) (tick w1)) as (o & -> & ? & _).
Qed.

(** More fuel than a call needs changes nothing. *)
Lemma request_sync_impl_fuel fuel : ∀ conn encoding a2s_proto challenge retries ping w,
  terminates (request_sync_impl fuel conn encoding a2s_proto challenge retries ping w) →
  request_sync_impl (S fuel) conn encoding a2s_proto challenge retries ping w
  = request_sync_impl fuel conn encoding a2s_proto challenge retries ping w.
Proof.
  induction fuel as [|fuel IH]; intros conn encoding a2s_proto challenge retries ping w;
    [done|].
  intros Hterm.
  destruct (request conn (serialize_request a2s_proto challenge) (tick w))
    as [resp w1|e w1|] eqn:Hreq.
  - rewrite !(request_sync_impl_response _ _ _ _ _ _ _ _ _ _ Hreq) in *.
    unfold bind, lift, raise, ret in *.
    destruct (read_uint8 _) as [|[ty rd]]; cbn [fst snd] in *; [done|].
    destruct (ty =? _); [|done].
    destruct (retries >=? _); [done|].
    destruct (read_uint32 _) as [|[c rd']]; cbn [fst snd] in *; [done|].
    by apply IH.
  - by rewrite !(request_sync_impl_no_response _ _ _ _ _ _ _ _ _ _ Hreq).
  - by pose proof (request_terminates conn (serialize_request a2s_proto challenge)
                     (tick w)) as Ht; rewrite Hreq in Ht.
Qed.
Lemma request_session conn payload w resp w1 :
  request conn payload (tick w) = Return resp w1 →
  clock w1 = clock w ∧ ticks w1 = S (ticks w)
  ∧ sock_closed w1 = sock_closed w ∧ deserialized w1 = deserialized w.
Proof.
  intros Hreq. by destruct (request_world conn payload (tick w) w1) as [? _];
    [by rewrite Hreq|].
Qed.

Lemma attempt_ping_first conn payload retries ping w resp w1 :
  request conn payload (tick w) = Return resp w1 →
  attempt_ping retries ping w w1
  = if retries =? 0 then Some (clock w (S (ticks w)) - clock w (ticks w))%float
    else ping.
Proof.
  intros (Hc & Ht & _)%request_session. unfold attempt_ping. by rewrite Hc, Ht.
Qed.

(** A call leaves the clock and the state of the socket as they are. *)
Lemma request_sync_impl_session fuel :
  ∀ conn encoding a2s_proto challenge retries ping w w',
  world_of (request_sync_impl fuel conn encoding a2s_proto challenge retries ping w)
  = Some w' →
  clock w' = clock w ∧ sock_closed w' = sock_closed w.
Proof.
  induction fuel as [|fuel IH]; intros conn encoding a2s_proto challenge retries ping w w';
    [done|].
  attempt_cases fuel conn encoding a2s_proto challenge retries ping w.
  - intros [= <-].
    destruct (request_world conn (serialize_request a2s_proto challenge) (tick w) w1)
      as [(? & _ & ? & _) _]; [by rewrite Hreq|done].
  - intros [= <-]. by apply request_session in Hreq as (? & _ & ? & _).
  - intros [= <-]. by apply request_session in Hreq as (? & _ & ? & _).
  - intros [= <-]. by apply request_session in Hreq as (? & _ & ? & _).
  - intros [Hc Hs]%IH. apply request_session in Hreq as (? & _ & ? & _).
    simpl in *. split; congruence.
  - intros [= <-]. by apply request_session in Hreq as (? & _ & ? & _).
  - destruct (call_deserialize_world a2s_proto (mkReader rest encoding) (byte_val b)
                (attempt_ping retries ping w w1) (tick w1)) as (o & -> & _ & -> & _).
    intros [= <-]. by apply request_session in Hreq as (? & _ & ? & _).
Qed.

(** The log of a call: the request with the challenge of the call,
    then exchanges of a response and the request that follows it. *)
Lemma request_sync_impl_log fuel :
  ∀ conn encoding a2s_proto challenge retries ping w w',
  world_of (request_sync_impl fuel conn encoding a2s_proto challenge retries ping w)
  = Some w' →
  ∃ l, log w' = log w ++ Sending (serialize_request a2s_proto challenge) :: l
       ∧ (l = [] ∨ ∃ r l', l = r :: l' ∧ is_received r = true ∧ exchanges l').
Proof.
  induction fuel as [|fuel IH]; intros conn encoding a2s_proto challenge retries ping w w';
    [done|].
  assert (Hdone : ∀ resp w1,
    request conn (serialize_request a2s_proto challenge) (tick w) = Return resp w1 →
    ∃ l, log w1 = log w ++ Sending (serialize_request a2s_proto challenge) :: l
         ∧ (l = [] ∨ ∃ r l', l = r :: l' ∧ is_received r = true ∧ exchanges l')).
  { intros resp w1 (r & Hr & ->)%request_Return_log. exists [r].
    split; [done|]. right. by exists r, []. }
  attempt_cases fuel conn encoding a2s_proto challenge retries ping w.
  - intros [= <-].
    destruct (request_world conn (serialize_request a2s_proto challenge) (tick w) w1)
      as (_ & _ & [Hlog|(r & Hr & Hlog)]); [by rewrite Hreq| |].
    + exists []. split; [done | by left].
    + exists [r]. split; [done|]. right. by exists r, [].
  - intros [= <-]. by apply (Hdone _ _ Hreq).
  - intros [= <-]. by apply (Hdone _ _ Hreq).
  - intros [= <-]. by apply (Hdone _ _ Hreq).
  - intros (l & Hlog & Hl)%IH.
    apply request_Return_log in Hreq as (r & Hrec & Hlog1). simpl in *.
    exists (r :: Sending (serialize_request a2s_proto (le_val (take 4 rest))) :: l).
    split.
    + rewrite Hlog, Hlog1. by rewrite <- app_assoc.
    + right. eexists _, _. split; [done|]. split; [done|].
      destruct Hl as [->|(r' & l' & -> & ? & ?)]; done.
  - intros [= <-]. by apply (Hdone _ _ Hreq).
  - destruct (call_deserialize_world a2s_proto (mkReader rest encoding) (byte_val b)
                (attempt_ping retries ping w w1) (tick w1)) as (o & -> & _ & -> & _).
    intros [= <-]. by apply (Hdone _ _ Hreq).
Qed.

(** A call sends one datagram for each attempt, and makes at most
    [DEFAULT_RETRIES - retries] attempts after the first. *)
Lemma request_sync_impl_sends fuel :
  ∀ conn encoding a2s_proto challenge retries ping w w',
  world_of (request_sync_impl fuel conn encoding a2s_proto challenge retries ping w)
  = Some w' →
  sock_closed w = false →
  ∃ more,
    sent w' = sent w
              ++ (address conn, HEADER_SIMPLE ++ serialize_request a2s_proto challenge)
                 :: more
    ∧ (length more ≤ Z.to_nat (DEFAULT_RETRIES - retries))%nat.
Proof.
  induction fuel as [|fuel IH]; intros conn encoding a2s_proto challenge retries ping w w';
    [done|].
  assert (Hone : ∀ w1,
    world_of (request conn (serialize_request a2s_proto challenge) (tick w)) = Some w1 →
    sock_closed w = false →
    sent w1 = sent w ++ [(address conn,
                          HEADER_SIMPLE ++ serialize_request a2s_proto challenge)]).
  { intros w1 (_ & Hsent & _)%request_world Hopen. by apply Hsent. }
  attempt_cases fuel conn encoding a2s_proto challenge retries ping w.
  1-4, 6: intros [= <-] Hopen; exists []; split; [|simpl; lia];
    cbn [sent tick]; apply Hone; [by rewrite Hreq | done].
  - intros Hw' Hopen.
    pose proof (request_session _ _ _ _ _ Hreq) as (_ & _ & Hc & _).
    apply IH in Hw' as (more & Hsent & Hlen'); [|simpl; congruence].
    eexists (_ :: more). split.
    + rewrite Hsent. simpl. rewrite (Hone w1) by (by rewrite ?Hreq).
      by rewrite <- app_assoc.
    + simpl. lia.
  - destruct (call_deserialize_world a2s_proto (mkReader rest encoding) (byte_val b)
                (attempt_ping retries ping w w1) (tick w1)) as (o & -> & _ & -> & _).
    intros [= <-] Hopen. exists []. split; [|simpl; lia].
    cbn [sent tick log_deserialize]. apply Hone; [by rewrite Hreq | done].
Qed.

(** The deserializer is called at most once, at the end, with the ping
    of the first attempt, or with the ping the call was given when it
    is not a first attempt. *)
Lemma request_sync_impl_deserialized fuel :
  ∀ conn encoding a2s_proto challenge retries ping w o,
  request_sync_impl fuel conn encoding a2s_proto challenge retries ping w = o →
  0 <= retries →
  let final := if retries =? 0
               then Some (clock w (S (ticks w)) - clock w (ticks w))%float
               else ping in
  (∀ w', world_of o = Some w' →
     deserialized w' = deserialized w
     ∨ ∃ reader response_type,
         deserialized w' = deserialized w ++ [(reader, response_type, final)])
  ∧ (∀ res w', o = Return res w' →
       ∃ reader response_type,
         deserialized w' = deserialized w ++ [(reader, response_type, final)]
         ∧ deserialize_response a2s_proto reader response_type final = inr res).
Proof.
  induction fuel as [|fuel IH];
    intros conn encoding a2s_proto challenge retries ping w o <- Hretries final;
    [done|].
  attempt_cases fuel conn encoding a2s_proto challenge retries ping w.
  1: { split; [|done]. intros w' [= <-]. left.
       by destruct (request_world conn (serialize_request a2s_proto challenge)
                      (tick w) w1) as [(_ & _ & _ & ?) _]; [by rewrite Hreq|]. }
  1-3, 5: split; [|done]; intros w' [= <-]; left;
    by apply request_session in Hreq as (_ & _ & _ & ?).
  - rewrite (attempt_ping_first _ _ _ _ _ _ _ Hreq). fold final.
    apply request_session in Hreq as (Hclock & Hticks & _ & Hdes).
    destruct (IH conn encoding a2s_proto (le_val (take 4 rest)) (retries + 1) final
                (tick w1) _ eq_refl ltac:(lia)) as [IH1 IH2].
    destruct (Z.eqb_spec (retries + 1) 0) as [?|_]; [lia|].
    simpl in IH1, IH2. rewrite Hdes in IH1, IH2. done.
  - rewrite (attempt_ping_first _ _ _ _ _ _ _ Hreq). fold final.
    apply request_session in Hreq as (_ & _ & _ & Hdes).
    destruct (call_deserialize_world a2s_proto (mkReader rest encoding) (byte_val b)
                final (tick w1)) as (o & -> & _ & Hw & Hres).
    split.
    + intros w'. rewrite Hw. intros [= <-]. right.
      exists (mkReader rest encoding), (byte_val b). simpl. by rewrite Hdes.
    + intros res w' ->. injection Hw as ->.
      exists (mkReader rest encoding), (byte_val b). simpl. rewrite Hdes.
      split; [done|]. by eapply Hres.
Qed.
(** A challenge response received with retries left: the call goes on
    as the next attempt. *)
Lemma request_sync_impl_retry fuel conn encoding a2s_proto challenge retries ping
    w C rest w1 :
  request conn (serialize_request a2s_proto challenge) (tick w)
  = Return (x41 :: le32 C ++ rest) w1 →
  retries < DEFAULT_RETRIES → 0 <= C < 2 ^ 32 →
  request_sync_impl (S fuel) conn encoding a2s_proto challenge retries ping w
  = request_sync_impl fuel conn encoding a2s_proto C (retries + 1)
      (attempt_ping retries ping w w1) (tick w1).
Proof.
  intros Hreq Hr HC. rewrite (request_sync_impl_response _ _ _ _ _ _ _ _ _ _ Hreq).
  rewrite read_uint8_cons. unfold lift at 1.
  rewrite (bind_Return _ _ _ (byte_val x41, mkReader (le32 C ++ rest) encoding)
             _ eq_refl).
  cbn [fst snd]. change (byte_val x41 =? A2S_CHALLENGE_RESPONSE) with true. cbv iota.
  destruct (Z.geb_spec retries DEFAULT_RETRIES) as [?|_]; [lia|].
  rewrite read_uint32_le32 by done. unfold lift at 1.
  by rewrite (bind_Return _ _ _ (C, mkReader rest encoding) _ eq_refl).
Qed.

(** A challenge response received with no retry left. *)
Lemma request_sync_impl_challenge_loop fuel conn encoding a2s_proto challenge retries
    ping w rest w1 :
  request conn (serialize_request a2s_proto challenge) (tick w)
  = Return (x41 :: rest) w1 →
  DEFAULT_RETRIES <= retries →
  request_sync_impl (S fuel) conn encoding a2s_proto challenge retries ping w
  = Raise (BrokenMessageError "Server keeps sending challenge responses") (tick w1).
Proof.
  intros Hreq Hr. rewrite (request_sync_impl_response _ _ _ _ _ _ _ _ _ _ Hreq).
  rewrite read_uint8_cons. unfold lift at 1.
  rewrite (bind_Return _ _ _ (byte_val x41, mkReader rest encoding) _ eq_refl).
  cbn [fst snd]. change (byte_val x41 =? A2S_CHALLENGE_RESPONSE) with true. cbv iota.
  by destruct (Z.geb_spec retries DEFAULT_RETRIES) as [_|?]; [|lia].
Qed.

(** C2. In a call that starts with [retries = 0], the deserializer is
    called at most once, and the ping it is given is the reading of the
    clock after the first response less the reading before the first
    request, however many challenge retries came between. An attempt
    with [retries > 0] hands on the ping it was given. *)
Theorem ping_of_first_attempt fuel conn encoding a2s_proto challenge ping w :
  let first_ping := Some (clock w (S (ticks w)) - clock w (ticks w))%float in
  (∀ w',
     world_of (request_sync_impl fuel conn encoding a2s_proto challenge 0 ping w)
     = Some w' →
     deserialized w' = deserialized w
     ∨ ∃ reader response_type,
         deserialized w' = deserialized w ++ [(reader, response_type, first_ping)])
  ∧ (∀ res w',
       request_sync_impl fuel conn encoding a2s_proto challenge 0 ping w
       = Return res w' →
       ∃ reader response_type,
         deserialized w' = deserialized w ++ [(reader, response_type, first_ping)]
         ∧ deserialize_response a2s_proto reader response_type first_ping = inr res)
  ∧ (∀ retries w', 0 < retries →
       world_of (request_sync_impl fuel conn encoding a2s_proto challenge retries ping w)
       = Some w' →
       deserialized w' = deserialized w
       ∨ ∃ reader response_type,
           deserialized w' = deserialized w ++ [(reader, response_type, ping)]).
Proof.
  intros first_ping. split; [|split].
  - intros w'.
    destruct (request_sync_impl_deserialized fuel conn encoding a2s_proto challenge
                0 ping w _ eq_refl ltac:(lia)) as [Hd _].
    apply Hd.
  - intros res w'.
    destruct (request_sync_impl_deserialized fuel conn encoding a2s_proto challenge
                0 ping w _ eq_refl ltac:(lia)) as [_ Hd].
    apply Hd.
  - intros retries w' Hretries.
    destruct (request_sync_impl_deserialized fuel conn encoding a2s_proto challenge
                retries ping w _ eq_refl ltac:(lia)) as [Hd _].
    destruct (Z.eqb_spec retries 0) as [?|_]; [lia|]. apply Hd.
Qed.

(** C8. A response whose first byte is not the challenge tag and that
    the protocol's [validate_response_type] refuses ends the call with
    a [BrokenMessageError] whose message holds this byte as [hex]
    writes it, from which the byte is read back; the deserializer has
    not been called. *)
Theorem invalid_response_type fuel conn encoding a2s_proto challenge retries ping
    w b rest w1 :
  request conn (serialize_request a2s_proto challenge) (tick w)
  = Return (b :: rest) w1 →
  byte_val b ≠ A2S_CHALLENGE_RESPONSE →
  validate_response_type a2s_proto (byte_val b) = false →
  request_sync_impl (S fuel) conn encoding a2s_proto challenge retries ping w
  = Raise (BrokenMessageError
             (String.append "Invalid response type: " (hex (byte_val b)))) (tick w1)
  ∧ deserialized (tick w1) = deserialized w
  ∧ HexString.to_Z (hex (byte_val b)) = byte_val b.
Proof.
  intros Hreq Hb Hv. rewrite (request_sync_impl_response _ _ _ _ _ _ _ _ _ _ Hreq).
  rewrite read_uint8_cons. unfold lift at 1.
  rewrite (bind_Return _ _ _ (byte_val b, mkReader rest encoding) _ eq_refl).
  cbn [fst snd]. destruct (Z.eqb_spec (byte_val b) A2S_CHALLENGE_RESPONSE); [done|].
  rewrite Hv. cbn [negb]. split; [done|]. split.
  - by apply request_session in Hreq as (_ & _ & _ & ?).
  - apply HexString.to_Z_of_Z.
Qed.

(** ** [request_sync] *)

Lemma request_sync_eq address timeout encoding a2s_proto w :
  request_sync address timeout encoding a2s_proto w
  = match request_sync_impl enough_fuel (mkStream address) encoding a2s_proto 0 0 None
            (set_closed w false) with
    | Return response w1 => Return response (set_closed w1 true)
    | Raise e w1 => Raise e w1
    | OutOfFuel => OutOfFuel
    end.
Proof.
  unfold request_sync, A2SStream_init, bind, sock_open, close, sock_close, ret.
  by destruct (request_sync_impl _ _ _ _ _ _ _ _).
Qed.

(** [request_sync] always comes to an end. *)
Lemma request_sync_terminates address timeout encoding a2s_proto w :
  terminates (request_sync address timeout encoding a2s_proto w).
Proof.
  rewrite request_sync_eq.
  pose proof (request_sync_impl_terminates enough_fuel (mkStream address) encoding
                a2s_proto 0 0 None (set_closed w false)) as Hterm.
  destruct (request_sync_impl _ _ _ _ _ _ _ _); [done..|].
  apply Hterm. unfold enough_fuel. rewrite Z.sub_0_r. lia.
Qed.

(** When the exchange raises, [request_sync] does not come to its
    [conn.close()]: the socket is open when the exception leaves. *)
Lemma request_sync_raise_open address timeout encoding a2s_proto w e w' :
  request_sync address timeout encoding a2s_proto w = Raise e w' →
  sock_closed w' = false.
Proof.
  rewrite request_sync_eq.
  destruct (request_sync_impl _ _ _ _ _ _ _ _) as [res w1|e1 w1|] eqn:Himpl; [done| |done].
  intros [= _ <-].
  by destruct (request_sync_impl_session enough_fuel (mkStream address) encoding
                 a2s_proto 0 0 None (set_closed w false) w1) as [_ ?];
    [by rewrite Himpl|].
Qed.

(** C9, as the code has it. [close] is idempotent, and [request_sync]
    always comes to an end. When it returns, it has closed the socket
    itself, and the [__del__] of the discarded stream changes nothing.
    When it raises, a timeout or another exception, it has not closed
    the socket: the socket is open when the exception leaves the call,
    and it is closed when the stream is discarded and its [__del__]
    runs. *)
Theorem socket_released address timeout encoding a2s_proto w :
  (∀ conn w0, (close conn ;;; close conn) w0 = close conn w0)
  ∧ terminates (request_sync address timeout encoding a2s_proto w)
  ∧ (∀ res w', request_sync address timeout encoding a2s_proto w = Return res w' →
       sock_closed w' = true
       ∧ discarded (mkStream address) (Return res w') = Return res w')
  ∧ (∀ e w', request_sync address timeout encoding a2s_proto w = Raise e w' →
       sock_closed w' = false
       ∧ ∃ w'', discarded (A := R) (mkStream address) (Raise e w') = Raise e w''
                ∧ sock_closed w'' = true
                ∧ set_closed w'' false = w').
Proof.
  split; [done|]. split; [apply request_sync_terminates|]. split.
  - intros res w'. rewrite request_sync_eq.
    destruct (request_sync_impl _ _ _ _ _ _ _ _); [|done..]. by intros [= _ <-].
  - intros e w' Hraise. apply request_sync_raise_open in Hraise as Hopen.
    split; [done|]. exists (set_closed w' true).
    split; [done|]. split; [done|]. destruct w'. simpl in *. by subst.
Qed.
End driver_facts.

(** ** A server that keeps sending challenges *)

Lemma last_cons_default {A} (l : list A) x d d' :
  List.last (x :: l) d = List.last (x :: l) d'.
Proof.
  revert x. induction l as [|y l IH]; intros x; [done|].
  change (List.last (y :: l) d = List.last (y :: l) d'). apply IH.
Qed.

Section challenge_loop.
Context {imports : Imports} {R : Type}.
Implicit Types (conn : A2SStream) (a2s_proto : Protocol R) (w : World).

Lemma request_simple conn payload w d tail :
  sock_closed w = false → inbox w = d :: tail →
  Z.of_nat (length d) <= 65535 → take 4 d = HEADER_SIMPLE →
  request conn payload w
  = Return (drop 4 d)
      (mkWorld (clock w) tail (sent w ++ [(address conn, HEADER_SIMPLE ++ payload)])
         (ticks w) false (deserialized w)
         (log w ++ [Sending payload; ReceivedSingle (drop 4 d)])).
Proof.
  intros Hopen Hin Hlen Hheader. unfold request, bind at 1.
  rewrite send_open by done.
  rewrite (recv_simple_datagram conn _ d tail); try done.
  f_equal. unfold add_log, set_inbox, set_sent. simpl.
  by rewrite <- app_assoc, Hopen.
Qed.

(** As many challenge responses as there are retries left are each
    answered by one request, with the challenge of the response. *)
Lemma request_sync_impl_challenges cs :
  ∀ fuel conn encoding a2s_proto challenge retries ping w tail,
  sock_closed w = false →
  inbox w = (challenge_datagram <$> cs) ++ tail →
  Forall (λ c, 0 <= c < 2 ^ 32) cs →
  retries + Z.of_nat (length cs) <= DEFAULT_RETRIES →
  ∃ ping' w',
    request_sync_impl (length cs + fuel) conn encoding a2s_proto challenge retries ping w
    = request_sync_impl fuel conn encoding a2s_proto (List.last cs challenge)
        (retries + Z.of_nat (length cs)) ping' w'
    ∧ sock_closed w' = false ∧ inbox w' = tail
    ∧ sent w' = sent w
                ++ (request_datagram conn a2s_proto <$> removelast (challenge :: cs)).
Proof.
  induction cs as [|c cs IH];
    intros fuel conn encoding a2s_proto challenge retries ping w tail Hopen Hin Hcs Hr.
  - exists ping, w. simpl in *. by rewrite Z.add_0_r, app_nil_r.
  - apply Forall_cons in Hcs as [Hc Hcs].
    pose (w1 := mkWorld (clock w) ((challenge_datagram <$> cs) ++ tail)
             (sent w ++ [request_datagram conn a2s_proto challenge])
             (S (ticks w)) false (deserialized w)
             (log w ++ [Sending (serialize_request a2s_proto challenge);
                        ReceivedSingle (x41 :: le32 c)])).
    assert (Hreq : request conn (serialize_request a2s_proto challenge) (tick w)
                   = Return (x41 :: le32 c ++ []) w1).
    { rewrite app_nil_r.
      by rewrite (request_simple conn _ (tick w) (challenge_datagram c)
                    ((challenge_datagram <$> cs) ++ tail)). }
    destruct (IH fuel conn encoding a2s_proto c (retries + 1)
                (attempt_ping retries ping w w1) (tick w1) tail)
      as (ping' & w' & Himpl & Hopen' & Hin' & Hsent');
      [done | done | done | simpl in Hr; lia |].
    exists ping', w'. split; [|split; [done|split; [done|]]].
    + cbn [length Nat.add].
      rewrite (request_sync_impl_retry _ _ _ _ _ _ _ _ _ _ _ Hreq)
        by (simpl in Hr; lia || done).
      rewrite Himpl. f_equal.
      * destruct cs as [|c' cs]; [done|].
        change (List.last (c' :: cs) c = List.last (c' :: cs) challenge).
        apply last_cons_default.
      * simpl length. lia.
    + rewrite Hsent'. simpl sent. rewrite <- app_assoc. by destruct cs.
Qed.
(** A call that receives [DEFAULT_RETRIES + 1] challenge responses in a
    row: each but the last is answered by one request with its
    challenge, and the last ends the call. *)
Lemma request_sync_challenge_loop address timeout encoding a2s_proto w cs c_last tail :
  Z.of_nat (length cs) = DEFAULT_RETRIES →
  Forall (λ c, 0 <= c < 2 ^ 32) cs → 0 <= c_last < 2 ^ 32 →
  inbox w = (challenge_datagram <$> cs ++ [c_last]) ++ tail →
  ∃ w',
    request_sync address timeout encoding a2s_proto w
    = Raise (BrokenMessageError "Server keeps sending challenge responses") w'
    ∧ sent w' = sent w ++ (request_datagram (mkStream address) a2s_proto <$> 0 :: cs)
    ∧ inbox w' = tail.
Proof.
  intros Hlen Hcs Hlast Hin. rewrite request_sync_eq.
  rewrite fmap_app, <- app_assoc in Hin.
  destruct (request_sync_impl_challenges cs 1 (mkStream address) encoding a2s_proto
              0 0 None (set_closed w false) (challenge_datagram c_last :: tail))
    as (ping' & w' & Himpl & Hopen & Hin' & Hsent); [done | done | done | lia |].
  replace enough_fuel with (length cs + 1)%nat by (unfold enough_fuel; lia).
  rewrite Himpl.
  pose proof (request_simple (mkStream address)
                (serialize_request a2s_proto (List.last cs 0)) (tick w')
                (challenge_datagram c_last) tail Hopen Hin') as Hreq.
  rewrite (request_sync_impl_challenge_loop _ _ _ _ _ _ _ _ _ _
             (Hreq ltac:(simpl; lia) eq_refl)) by lia.
  eexists. split; [done|]. split; [|done].
  cbn [sent tick]. rewrite Hsent. cbn [sent set_closed]. rewrite <- app_assoc.
  f_equal.
  rewrite (app_removelast_last 0 (l := 0 :: cs)) at 2 by done.
  rewrite fmap_app. f_equal. by destruct cs.
Qed.

(** C1. (1) A response that begins with the challenge tag 0x41 and the
    four bytes of a challenge [C], received with retries left, makes
    the call go on as the attempt with challenge [C] and one retry
    more; what this attempt writes and sends begins with one request,
    the one serialized with [C], and no other request follows before a
    response has come. (2) A challenge response received when
    [retries] has reached [DEFAULT_RETRIES] ends the call with the
    [BrokenMessageError] of the challenge loop, and nothing more is
    sent. (3) So a call that receives [DEFAULT_RETRIES + 1] challenge
    responses in a row has sent the first request and one request for
    each challenge but the last, and ends with this error. *)
Theorem challenge_response_retry conn encoding a2s_proto :
  (∀ fuel challenge retries ping w rest w1,
     request conn (serialize_request a2s_proto challenge) (tick w)
     = Return (x41 :: rest) w1 →
     (retries < DEFAULT_RETRIES →
      ∀ C rest', 0 <= C < 2 ^ 32 → rest = le32 C ++ rest' →
        request_sync_impl (S fuel) conn encoding a2s_proto challenge retries ping w
        = request_sync_impl fuel conn encoding a2s_proto C (retries + 1)
            (attempt_ping retries ping w w1) (tick w1)
        ∧ ∀ w',
            world_of (request_sync_impl fuel conn encoding a2s_proto C (retries + 1)
                        (attempt_ping retries ping w w1) (tick w1)) = Some w' →
            (∃ l, log w' = log w1 ++ Sending (serialize_request a2s_proto C) :: l
                  ∧ (l = [] ∨ ∃ r l', l = r :: l' ∧ is_received r = true
                                      ∧ exchanges l'))
            ∧ (sock_closed w1 = false →
               ∃ more,
                 sent w' = sent w1 ++ request_datagram conn a2s_proto C :: more
                 ∧ (length more ≤ Z.to_nat (DEFAULT_RETRIES - (retries + 1)))%nat))
     ∧ (DEFAULT_RETRIES <= retries →
        request_sync_impl (S fuel) conn encoding a2s_proto challenge retries ping w
        = Raise (BrokenMessageError "Server keeps sending challenge responses")
            (tick w1)
        ∧ sent (tick w1) = sent w1 ∧ log (tick w1) = log w1))
  ∧ (∀ timeout w cs c_last tail,
       Z.of_nat (length cs) = DEFAULT_RETRIES →
       Forall (λ c, 0 <= c < 2 ^ 32) cs → 0 <= c_last < 2 ^ 32 →
       inbox w = (challenge_datagram <$> cs ++ [c_last]) ++ tail →
       ∃ w',
         request_sync (address conn) timeout encoding a2s_proto w
         = Raise (BrokenMessageError "Server keeps sending challenge responses") w'
         ∧ sent w' = sent w ++ (request_datagram conn a2s_proto <$> 0 :: cs)
         ∧ inbox w' = tail).
Proof.
  split.
  - intros fuel challenge retries ping w rest w1 Hreq. split.
    + intros Hr C rest' HC ->.
      split; [by apply (request_sync_impl_retry _ _ _ _ _ _ _ _ _ rest')|].
      intros w' Hw'. split.
      * by apply request_sync_impl_log in Hw'.
      * intros Hopen. apply request_sync_impl_sends in Hw'; done.
    + intros Hr. split; [|done]. by eapply request_sync_impl_challenge_loop.
  - intros timeout w cs c_last tail Hlen Hcs Hlast Hin. destruct conn as [a].
    by apply (request_sync_challenge_loop _ _ _ _ _ _ c_last).
Qed.
End challenge_loop.

(** ** The claims on the sample server *)

Lemma challenge_response_retry_witness :
  request_sync_impl (imports := sample_imports) 2 sample_conn "utf-8" sample_protocol 0 0 None
    sample_challenged
  = request_sync_impl (imports := sample_imports) 1 sample_conn "utf-8" sample_protocol 7 1
      (Some 0.25%float) (tick sample_challenged_1)
  ∧ ∃ w',
      request_sync (imports := sample_imports) (address sample_conn) 3.0%float "utf-8"
        sample_protocol (sample_world (challenge_datagram <$> [1; 2; 3; 4; 5; 6]))
      = Raise (BrokenMessageError "Server keeps sending challenge responses") w'
      ∧ sent w' = [] ++ (request_datagram sample_conn sample_protocol <$> [0; 1; 2; 3; 4; 5])
      ∧ inbox w' = [].
Proof.
  destruct (challenge_response_retry (imports := sample_imports) sample_conn "utf-8"
              sample_protocol) as [Hstep Hloop].
  split.
  - refine (proj1 (proj1 (Hstep 1%nat 0 0 None sample_challenged (le32 7)
                            sample_challenged_1 _) _ 7 [] _ _));
      [reflexivity | by vm_compute | by vm_compute | reflexivity].
  - apply (Hloop 3.0%float (sample_world (challenge_datagram <$> [1; 2; 3; 4; 5; 6]))
             [1; 2; 3; 4; 5] 6 []); [reflexivity | | by vm_compute | reflexivity].
    repeat (apply Forall_cons; split; [by vm_compute|]). apply Forall_nil. done.
Defined.

Lemma ping_of_first_attempt_witness :
  ∃ reader response_type,
    deserialized sample_challenged_end
    = [] ++ [(reader, response_type, Some 0.25%float)]
    ∧ deserialize_response sample_protocol reader response_type (Some 0.25%float)
      = inr ([x01], Some 0.25%float).
Proof.
  exact (proj1 (proj2 (ping_of_first_attempt (imports := sample_imports) 2 sample_conn "utf-8"
                         sample_protocol 0 None sample_challenged))
           ([x01], Some 0.25%float) sample_challenged_end eq_refl).
Defined.

Lemma invalid_response_type_witness :
  request_sync_impl (imports := sample_imports) 1 sample_conn "utf-8" sample_protocol 0 0 None
    sample_refused
  = Raise (BrokenMessageError "Invalid response type: 0x50") (tick sample_refused_1)
  ∧ deserialized (tick sample_refused_1) = []
  ∧ HexString.to_Z (hex 0x50) = 0x50.
Proof.
  apply (invalid_response_type (imports := sample_imports) 0 sample_conn "utf-8" sample_protocol
           0 0 None sample_refused x50 [x01] sample_refused_1);
    [reflexivity | discriminate | reflexivity].
Defined.

(** C9 as the claim has it fails: the exit of [request_sync] by an
    exception does not release the socket. With no datagram arriving,
    the call raises the timeout and the socket is open. *)
Lemma socket_open_on_raise_counterexample :
  ¬ (∀ (I : Imports) address timeout encoding
       (a2s_proto : Protocol (bytes * option float)) w e w',
       request_sync address timeout encoding a2s_proto w = Raise e w' →
       sock_closed w' = true).
Proof.
  intros Hclaim.
  specialize (Hclaim sample_imports (address sample_conn) 3.0%float "utf-8"%string
                sample_protocol (sample_world []) SocketTimeout _ eq_refl).
  discriminate Hclaim.
Qed.

Lemma socket_released_witness :
  sock_closed (tick (sample_refused_1)) = false
  ∧ ∃ w'',
      discarded (A := bytes * option float) sample_conn
        (Raise (BrokenMessageError "Invalid response type: 0x50") (tick sample_refused_1))
      = Raise (BrokenMessageError "Invalid response type: 0x50") w''
      ∧ sock_closed w'' = true
      ∧ set_closed w'' false = tick sample_refused_1.
Proof.
  exact (proj2 (proj2 (proj2 (socket_released (imports := sample_imports)
                                (address sample_conn) 3.0%float "utf-8" sample_protocol
                                sample_refused)))
           (BrokenMessageError "Invalid response type: 0x50") (tick sample_refused_1)
           eq_refl).
Defined.

(** ** The end-to-end scenarios, on the sample server *)

(** A: one packet of an accepted type: the decoded result, with the time
    of the exchange for ping. *)
Example scenario_single_packet :
  match request_sync (imports := sample_imports) (address sample_conn) 3.0%float "utf-8"
          sample_protocol (sample_world [[xff; xff; xff; xff; x49; x01; x02]]) with
  | Return response w => response = ([x01; x02], Some 0.25%float)
                         ∧ length (sent w) = 1%nat ∧ sock_closed w = true
  | _ => False
  end.
Proof. vm_compute. done. Qed.

(** B: the challenge 0x12345678, then an accepted payload: two requests,
    the second one with the challenge. *)
Example scenario_challenge :
  match request_sync (imports := sample_imports) (address sample_conn) 3.0%float "utf-8"
          sample_protocol
          (sample_world [challenge_datagram 0x12345678;
                         [xff; xff; xff; xff; x49; x01]]) with
  | Return response w =>
      response = ([x01], Some 0.25%float)
      ∧ sent w = request_datagram sample_conn sample_protocol <$> [0; 0x12345678]
  | _ => False
  end.
Proof. vm_compute. done. Qed.

(** C: three fragments that arrive with the ids 2, 0, 1. *)
Example scenario_shuffled_fragments :
  match recv (imports := sample_imports) sample_conn
          (sample_world [[xfe; xff; xff; xff; x02; x03; x43; x43];
                         [xfe; xff; xff; xff; x00; x03; x41];
                         [xfe; xff; xff; xff; x01; x03; x42; x42; x42]]) with
  | Return buf w => buf = [x41; x42; x42; x42; x43; x43] ∧ inbox w = []
  | _ => False
  end.
Proof. vm_compute. done. Qed.

(** D: no datagram arrives: the timeout leaves [request_sync] with one
    request sent and the socket open, and [__del__] closes it. *)
Example scenario_timeout :
  match request_sync (imports := sample_imports) (address sample_conn) 3.0%float "utf-8"
          sample_protocol (sample_world []) with
  | Raise e w =>
      e = SocketTimeout ∧ length (sent w) = 1%nat ∧ sock_closed w = false
      ∧ match A2SStream_del sample_conn w with
        | Return _ w' => sock_closed w' = true
        | _ => False
        end
  | _ => False
  end.
Proof. vm_compute. done. Qed.

(** * [a2s/datacls.py] *)

Import datacls.

(** ** [copy.copy] *)

Lemma copy_copy_extends x h : ∃ ext, (copy_copy x h).2 = h ++ ext.
Proof.
  destruct x; simpl; try (by exists []; rewrite app_nil_r).
  destruct (h !! l); [by eexists | by exists []; rewrite app_nil_r].
Qed.

Lemma copy_copy_shallow x h :
  valid h x → shallow_copy h x (copy_copy x h).2 (copy_copy x h).1.
Proof.
  destruct x; simpl; try done.
  intros [o Ho]. rewrite Ho. simpl. exists (length h).
  split; [done|]. split; [done|]. split; [done|].
  by rewrite lookup_app_r, Nat.sub_diag by done.
Qed.

Lemma copy_copy_bound x h l :
  valid h x → (copy_copy x h).1 = VRef l → (l < length (copy_copy x h).2)%nat.
Proof.
  destruct x; simpl; try done.
  intros [o Ho]. rewrite Ho. simpl. intros [= <-]. rewrite length_app. simpl. lia.
Qed.

Lemma valid_extends h ext v : valid h v → valid (h ++ ext) v.
Proof.
  destruct v; simpl; try done. intros [o Ho]. exists o. by apply lookup_app_l_Some.
Qed.

Lemma shallow_copy_extends h ext1 x h' c :
  valid h x → shallow_copy (h ++ ext1) x h' c → shallow_copy h x h' c.
Proof.
  destruct x; simpl; try done.
  intros [o Ho] (l' & -> & Hl' & _ & Hh'). exists l'.
  rewrite length_app in Hl'. split; [done|]. split; [lia|]. split; [by exists o|].
  rewrite Hh'. by rewrite (lookup_app_l_Some _ _ _ _ Ho).
Qed.

Lemma shallow_copy_later h x h' ext c :
  shallow_copy h x h' c → (∀ l, c = VRef l → (l < length h')%nat) →
  shallow_copy h x (h' ++ ext) c.
Proof.
  destruct x; simpl; try done.
  intros (l' & -> & Hl' & Hl & Hh') Hb. exists l'. repeat split; try done.
  rewrite <- Hh'. apply lookup_app_l. by apply Hb.
Qed.

(** ** [DataclsBase.__init__] *)

Lemma init_fields kwargs items : ∀ self h,
  NoDup items.*1 →
  (∀ item, item ∈ items → valid h (field_source kwargs item)) →
  (∃ ext, (foldl (init_field kwargs) (self, h) items).2 = h ++ ext)
  ∧ (∀ name, name ∉ items.*1 →
       (foldl (init_field kwargs) (self, h) items).1 !! name = self !! name)
  ∧ (∀ item, item ∈ items →
       ∃ c, (foldl (init_field kwargs) (self, h) items).1 !! item.1 = Some c
            ∧ shallow_copy h (field_source kwargs item)
                (foldl (init_field kwargs) (self, h) items).2 c
            ∧ ∀ l, c = VRef l →
                (l < length (foldl (init_field kwargs) (self, h) items).2)%nat).
Proof.
  induction items as [|item items IH]; intros self h Hnd Hvalid.
  { simpl. split; [by exists []; rewrite app_nil_r|]. split; [done|].
    intros item Hin. by apply elem_of_nil in Hin. }
  rewrite fmap_cons in Hnd. apply NoDup_cons in Hnd as [Hfresh Hnd].
  assert (Hstep : foldl (init_field kwargs) (self, h) (item :: items)
                  = foldl (init_field kwargs)
                      (<[item.1 := (copy_copy (field_source kwargs item) h).1]> self,
                       (copy_copy (field_source kwargs item) h).2) items)
    by reflexivity.
  rewrite Hstep. clear Hstep.
  set (c := copy_copy (field_source kwargs item) h).
  assert (Hsrc : valid h (field_source kwargs item)) by (apply Hvalid; left).
  destruct (copy_copy_extends (field_source kwargs item) h) as [ext1 Hext1].
  fold c in Hext1.
  destruct (IH (<[item.1 := c.1]> self) c.2 Hnd) as ([ext Hext] & Hother & Hfield).
  { intros item' Hin. rewrite Hext1. apply valid_extends, Hvalid. by right. }
  split; [|split].
  - exists (ext1 ++ ext). by rewrite Hext, Hext1, app_assoc.
  - intros name Hname. rewrite fmap_cons, not_elem_of_cons in Hname.
    destruct Hname as [Hne Hname]. rewrite (Hother name Hname).
    by rewrite lookup_insert_ne.
  - intros item' [->|Hin]%elem_of_cons.
    + exists c.1. rewrite (Hother item.1 Hfresh), lookup_insert_eq.
      split; [done|].
      pose proof (copy_copy_bound (field_source kwargs item) h) as Hb. fold c in Hb.
      split.
      * rewrite Hext. apply shallow_copy_later; [by apply copy_copy_shallow|].
        intros l. by apply Hb.
      * intros l Hl. rewrite Hext, length_app. specialize (Hb l Hsrc Hl). lia.
    + destruct (Hfield item' Hin) as (c' & Hc' & Hcopy & Hb).
      exists c'. split; [done|]. split; [|done].
      apply (shallow_copy_extends h ext1); [apply Hvalid; by right|].
      by rewrite <- Hext1.
Qed.

Lemma init_fields_ext kwargs kwargs' items : ∀ st,
  (∀ item, item ∈ items → kwargs' !! item.1 = kwargs !! item.1) →
  foldl (init_field kwargs') st items = foldl (init_field kwargs) st items.
Proof.
  induction items as [|item items IH]; intros st Hsame; [done|].
  cbn [foldl]. rewrite IH by (intros; apply Hsame; by right).
  unfold init_field at 2 4. by rewrite (Hsame item) by left.
Qed.

(** ** [DataclsMeta.__new__] *)

Lemma od_set_new k v (od : OrderedDict) : k ∉ od.*1 → od_set k v od = od ++ [(k, v)].
Proof. intros Hk. unfold od_set. by rewrite bool_decide_eq_false_2. Qed.

Lemma collect_defaults names : ∀ (values : OrderedDict) (prop : gmap string value),
  NoDup names → (∀ n, n ∈ names → n ∉ values.*1) →
  (foldl collect_default (values, prop) names).1
  = values ++ ((λ n, (n, default VNone (prop !! n))) <$> names).
Proof.
  induction names as [|n names IH]; intros values prop Hnd Hfresh.
  { simpl. by rewrite app_nil_r. }
  apply NoDup_cons in Hnd as [Hn Hnd].
  assert (Hstep : ∃ prop' : gmap string value,
    collect_default (values, prop) n
    = (values ++ [(n, default VNone (prop !! n))], prop')
    ∧ ∀ m, m ≠ n → prop' !! m = prop !! m).
  { unfold collect_default. cbn [fst snd].
    destruct (prop !! n) as [v|] eqn:Hv; simpl.
    - exists (delete n prop). rewrite od_set_new by (apply Hfresh; left).
      split; [done|]. intros m Hm. by rewrite lookup_delete_ne.
    - exists prop. by rewrite od_set_new by (apply Hfresh; left). }
  destruct Hstep as (prop' & Hstep & Hprop').
  cbn [foldl]. rewrite Hstep, IH; [|done|].
  - rewrite <- app_assoc. simpl. do 2 f_equal.
    apply list_fmap_ext. intros i m Hm. rewrite Hprop'; [done|].
    intros ->. apply Hn. by eapply list_elem_of_lookup_2.
  - intros m Hm. rewrite fmap_app, elem_of_app. intros [Hin|Hin].
    + by apply (Hfresh m); [right|].
    + simpl in Hin. apply list_elem_of_singleton in Hin as ->. done.
Qed.

Lemma DataclsMeta_new_defaults name bases prop names :
  annotations prop = Some names → NoDup names →
  ∃ cls, DataclsMeta_new name bases prop = inr cls
         ∧ _defaults cls = (λ n, (n, declared_default prop n)) <$> names
         ∧ __slots__ cls = names.
Proof.
  intros Hann Hnd. unfold DataclsMeta_new. rewrite Hann. eexists. split; [done|].
  cbn [_defaults __slots__].
  rewrite (collect_defaults names [] (members prop) Hnd)
    by (intros; apply not_elem_of_nil).
  split; [done|]. simpl.
  clear. induction names as [|n names IH]; [done|].
  rewrite !fmap_cons. cbn [fst]. by rewrite IH.
Qed.

(** ** Instances *)

Lemma construct_fields cls kwargs h :
  NoDup (_defaults cls).*1 →
  (∀ item, item ∈ _defaults cls → valid h (field_source kwargs item)) →
  (∀ item, item ∈ _defaults cls →
     ∃ c, (construct cls kwargs h).1 !! item.1 = Some c
          ∧ shallow_copy h (field_source kwargs item) (construct cls kwargs h).2 c)
  ∧ (∀ n, n ∉ (_defaults cls).*1 → (construct cls kwargs h).1 !! n = None)
  ∧ (∀ n l, (construct cls kwargs h).1 !! n = Some (VRef l) →
       (length h ≤ l < length (construct cls kwargs h).2)%nat)
  ∧ (∀ l o, h !! l = Some o → (construct cls kwargs h).2 !! l = Some o).
Proof.
  intros Hnd Hvalid. unfold construct, DataclsBase_init.
  destruct (init_fields kwargs (_defaults cls) ∅ h Hnd Hvalid)
    as ([ext Hext] & Hother & Hfield).
  split; [|split; [|split]].
  - intros item Hin. destruct (Hfield item Hin) as (c & Hc & Hcopy & _). eauto.
  - intros n Hn. by rewrite (Hother n Hn).
  - intros n l Hl. destruct (decide (n ∈ (_defaults cls).*1)) as [Hn|Hn].
    2: { by rewrite (Hother n Hn) in Hl. }
    apply list_elem_of_fmap in Hn as (item & -> & Hin).
    destruct (Hfield item Hin) as (c & Hc & Hcopy & Hb).
    rewrite Hl in Hc. injection Hc as <-. split; [|by apply Hb].
    destruct (field_source kwargs item); simpl in Hcopy; try done.
    destruct Hcopy as (l' & [= ->] & ? & _). done.
  - intros l o Hl. rewrite Hext. by apply lookup_app_l_Some.
Qed.

(** C10, as the code has it. A class made by [DataclsMeta] has for
    defaults the annotated names, each with the value the class body
    gives it, or [None]. An instance of it has every annotated field, and
    no other attribute: the field is a shallow copy of the keyword
    argument of its name when there is one, else a shallow copy of its
    default; keyword arguments of other names change nothing. A field
    that is a mutable object is an object made for this instance: it is
    not an object that was there before, a default or an argument, and
    not a field of an instance made after it. *)
Theorem datacls_construct name bases prop names kwargs h :
  annotations prop = Some names → NoDup names →
  (∀ n, n ∈ names → valid h (field_source kwargs (n, declared_default prop n))) →
  ∃ cls,
    DataclsMeta_new name bases prop = inr cls
    ∧ _defaults cls = (λ n, (n, declared_default prop n)) <$> names
    ∧ (∀ n, n ∈ names →
         ∃ c, (construct cls kwargs h).1 !! n = Some c
              ∧ shallow_copy h (field_source kwargs (n, declared_default prop n))
                  (construct cls kwargs h).2 c)
    ∧ (∀ n, n ∉ names → (construct cls kwargs h).1 !! n = None)
    ∧ (∀ kwargs', (∀ n, n ∈ names → kwargs' !! n = kwargs !! n) →
         construct cls kwargs' h = construct cls kwargs h)
    ∧ (∀ n l, (construct cls kwargs h).1 !! n = Some (VRef l) →
         (length h ≤ l < length (construct cls kwargs h).2)%nat)
    ∧ (∀ l o, h !! l = Some o → (construct cls kwargs h).2 !! l = Some o)
    ∧ (∀ kwargs2 n1 n2 l1 l2,
         (∀ n, n ∈ names →
               valid (construct cls kwargs h).2
                 (field_source kwargs2 (n, declared_default prop n))) →
         (construct cls kwargs h).1 !! n1 = Some (VRef l1) →
         (construct cls kwargs2 (construct cls kwargs h).2).1 !! n2 = Some (VRef l2) →
         l1 ≠ l2).
Proof.
  intros Hann Hnd Hvalid.
  destruct (DataclsMeta_new_defaults name bases prop names Hann Hnd)
    as (cls & Hcls & Hdef & Hslots).
  exists cls. split; [done|]. split; [done|].
  assert (Hkeys : (_defaults cls).*1 = names).
  { rewrite Hdef. clear. induction names as [|n names IH]; [done|].
    rewrite !fmap_cons. cbn [fst]. by rewrite IH. }
  assert (Hitems : ∀ item, item ∈ _defaults cls ↔
                           ∃ n, n ∈ names ∧ item = (n, declared_default prop n)).
  { intros item. rewrite Hdef, list_elem_of_fmap.
    split; intros (n & ? & ?); by exists n. }
  assert (Hvalid' : ∀ kw h', (∀ n, n ∈ names →
                      valid h' (field_source kw (n, declared_default prop n))) →
                    ∀ item, item ∈ _defaults cls → valid h' (field_source kw item)).
  { intros kw h' Hv item (n & Hn & ->)%Hitems. by apply Hv. }
  destruct (construct_fields cls kwargs h) as (Hfield & Hother & Hnew & Hold).
  { by rewrite Hkeys. }
  { by apply Hvalid'. }
  split; [|split; [|split; [|split; [|split]]]].
  - intros n Hn. apply (Hfield (n, declared_default prop n)). apply Hitems. eauto.
  - intros n Hn. apply Hother. by rewrite Hkeys.
  - intros kwargs' Hsame. unfold construct, DataclsBase_init.
    apply init_fields_ext. intros item (n & Hn & ->)%Hitems. by apply Hsame.
  - done.
  - done.
  - intros kwargs2 n1 n2 l1 l2 Hvalid2 H1 H2.
    destruct (construct_fields cls kwargs2 (construct cls kwargs h).2)
      as (_ & _ & Hnew2 & _).
    { by rewrite Hkeys. }
    { by apply Hvalid'. }
    apply Hnew in H1. apply Hnew2 in H2. lia.
Qed.

(** C10 as the claim has it fails: the field of a keyword argument is
    not the argument itself when the argument is a mutable object. With
    the list at location 1 given for [tags], the field [tags] of the
    instance is a new list, at location 2. *)
Lemma datacls_kwarg_counterexample :
  ¬ (∀ name bases prop names cls kwargs h n v,
       annotations prop = Some names → NoDup names →
       DataclsMeta_new name bases prop = inr cls →
       valid h v →
       n ∈ names → kwargs !! n = Some v →
       (construct cls kwargs h).1 !! n = Some v).
Proof.
  intros Hclaim.
  assert (Hfield : (construct sample_class (<["tags"%string := VRef 1]> ∅) sample_heap).1
                   !! "tags"%string = Some (VRef 1)).
  { apply (Hclaim "Player"%string [] sample_body ["name"; "score"; "tags"]%string).
    - reflexivity.
    - apply (bool_decide_unpack _). by vm_compute.
    - by vm_compute.
    - by eexists.
    - apply (bool_decide_unpack _). by vm_compute.
    - by vm_compute. }
  vm_compute in Hfield. discriminate Hfield.
Qed.

Lemma datacls_construct_witness :
  ∃ cls,
    DataclsMeta_new "Player" [] sample_body = inr cls
    ∧ _defaults cls
      = (λ n, (n, declared_default sample_body n)) <$> ["name"; "score"; "tags"]%string
    ∧ ∀ n, n ∉ ["name"; "score"; "tags"]%string →
           (construct cls (<["tags"%string := VRef 1]> (<["team"%string := VInt 3]> ∅))
              sample_heap).1 !! n = None.
Proof.
  destruct (datacls_construct "Player" [] sample_body ["name"; "score"; "tags"]%string
              (<["tags"%string := VRef 1]> (<["team"%string := VInt 3]> ∅)) sample_heap)
    as (cls & Hnew & Hdef & _ & Hother & _).
  - reflexivity.
  - apply (bool_decide_unpack _). by vm_compute.
  - intros n Hn.
    repeat (apply elem_of_cons in Hn as [->|Hn]); [..|by apply elem_of_nil in Hn];
      vm_compute; try done; by eexists.
  - by exists cls.
Defined.

(** * More of [a2s/a2s_sync.py] *)

(** ** The fragment loop of [recv], when a response does not come whole *)

Section collection_facts.
Context {imports : Imports}.
Implicit Types (conn : A2SStream) (w : World) (first : Fragment).

(** The loop, after the datagrams [ds] have come and more are waited for. *)
Lemma recv_fragments_prefix ds : ∀ more fuel first rest w tail,
  sock_closed w = false →
  inbox w = ds ++ tail →
  Forall2 continuation ds more →
  Z.of_nat (length (first :: rest ++ more)) < fragment_count first →
  recv_fragments (length ds + fuel) (first :: rest) w
  = recv_fragments fuel (first :: rest ++ more) (set_inbox w tail).
Proof.
  induction ds as [|d ds IH]; intros more fuel first rest w tail Hopen Hin Hall Hcount;
    inversion Hall as [|? f ? more' Hd Hall']; subst.
  - simpl in Hin. by rewrite app_nil_r, <- Hin, set_inbox_inbox.
  - cbn [length Nat.add]. rewrite recv_fragments_eq.
    destruct (Z.ltb_spec (Z.of_nat (length (first :: rest))) (fragment_count first))
      as [_|Hge].
    2: { simpl in *. rewrite length_app in *. simpl in *. lia. }
    assert (Hrecv : sock_recv 4096 w
                    = Return (take (Z.to_nat 4096) d) (set_inbox w (ds ++ tail))).
    { unfold sock_recv. by rewrite Hopen, Hin. }
    rewrite (bind_Return _ _ _ _ _ Hrecv).
    unfold continuation in Hd. rewrite Hd. unfold lift at 1.
    rewrite (bind_Return _ _ _ f _ eq_refl).
    change ((first :: rest) ++ [f]) with (first :: (rest ++ [f])).
    rewrite (IH more' fuel first (rest ++ [f]) _ tail); try done.
    + by rewrite <- app_assoc.
    + by rewrite <- app_assoc.
Qed.

(** X1. A multi-packet response of which fewer fragments arrive than the
    first one declares: [recv] takes every datagram that came, raises
    the timeout of the socket, returns no buffer and writes no record of
    a response. *)
Theorem recv_multi_timeout conn w packet w1 first more :
  sock_recv 65535 w = Return packet w1 →
  take 4 packet = HEADER_MULTI →
  decode_fragment (drop 4 packet) = inr first →
  Forall2 continuation (inbox w1) more →
  Z.of_nat (length (first :: more)) < fragment_count first →
  recv conn w = Raise SocketTimeout (set_inbox w1 []).
Proof.
  intros Hrecv Hheader Hfirst Hall Hcount. rewrite (recv_eq _ _ _ _ Hrecv).
  rewrite decide_False by (rewrite Hheader; discriminate).
  rewrite decide_True by done.
  rewrite Hfirst. unfold lift at 1.
  rewrite (bind_Return _ _ _ first _ eq_refl).
  pose proof (sock_recv_closed _ _ _ _ Hrecv) as Hopen.
  assert (Hfuel : ∃ fuel, Z.to_nat (fragment_count first)
                          = (length (inbox w1) + S fuel)%nat).
  { apply Forall2_length in Hall. simpl in Hcount.
    exists (Z.to_nat (fragment_count first) - length (inbox w1) - 1)%nat. lia. }
  destruct Hfuel as [fuel ->].
  rewrite (bind_Raise _ _ _ SocketTimeout (set_inbox w1 [])); [done|].
  rewrite (recv_fragments_prefix (inbox w1) more (S fuel) first [] w1 []);
    [|done|by rewrite app_nil_r|done|done].
  rewrite app_nil_l, recv_fragments_eq.
  destruct (Z.ltb_spec (Z.of_nat (length (first :: more))) (fragment_count first));
    [|lia].
  apply bind_Raise. unfold sock_recv. simpl. by rewrite Hopen.
Qed.

(** X2. A multi-packet response with a fragment that [decode_fragment]
    refuses: [recv] raises the error of the decoder and returns no
    buffer; the datagrams up to the refused one are taken, the ones after
    it are left. *)
Theorem recv_multi_decode_error conn w packet w1 first ds more bad e tail :
  sock_recv 65535 w = Return packet w1 →
  take 4 packet = HEADER_MULTI →
  decode_fragment (drop 4 packet) = inr first →
  inbox w1 = ds ++ bad :: tail →
  Forall2 continuation ds more →
  decode_fragment (drop 4 (take (Z.to_nat 4096) bad)) = inl e →
  Z.of_nat (length (first :: more)) < fragment_count first →
  recv conn w = Raise e (set_inbox w1 tail).
Proof.
  intros Hrecv Hheader Hfirst Hin Hall Hbad Hcount. rewrite (recv_eq _ _ _ _ Hrecv).
  rewrite decide_False by (rewrite Hheader; discriminate).
  rewrite decide_True by done.
  rewrite Hfirst. unfold lift at 1.
  rewrite (bind_Return _ _ _ first _ eq_refl).
  pose proof (sock_recv_closed _ _ _ _ Hrecv) as Hopen.
  assert (Hfuel : ∃ fuel, Z.to_nat (fragment_count first) = (length ds + S fuel)%nat).
  { apply Forall2_length in Hall. simpl in Hcount.
    exists (Z.to_nat (fragment_count first) - length ds - 1)%nat. lia. }
  destruct Hfuel as [fuel ->].
  rewrite (bind_Raise _ _ _ e (set_inbox w1 tail)); [done|].
  rewrite (recv_fragments_prefix ds more (S fuel) first [] w1 (bad :: tail));
    [|done..].
  rewrite app_nil_l, recv_fragments_eq.
  destruct (Z.ltb_spec (Z.of_nat (length (first :: more))) (fragment_count first));
    [|lia].
  assert (Hr : sock_recv 4096 (set_inbox w1 (bad :: tail))
               = Return (take (Z.to_nat 4096) bad) (set_inbox w1 tail)).
  { unfold sock_recv. simpl. by rewrite Hopen. }
  rewrite (bind_Return _ _ _ _ _ Hr). rewrite Hbad. done.
Qed.

(** A first fragment that [decode_fragment] refuses. *)
Lemma recv_multi_first_decode_error conn w packet w1 e :
  sock_recv 65535 w = Return packet w1 →
  take 4 packet = HEADER_MULTI →
  decode_fragment (drop 4 packet) = inl e →
  recv conn w = Raise e w1.
Proof.
  intros Hrecv Hheader Hfirst. rewrite (recv_eq _ _ _ _ Hrecv).
  rewrite decide_False by (rewrite Hheader; discriminate).
  rewrite decide_True by done. by rewrite Hfirst.
Qed.
End collection_facts.

(** ** The headers of the datagrams that follow the first *)

Lemma same_body_take n d d' :
  same_body d d' → drop 4 (take (4 + n) d) = drop 4 (take (4 + n) d').
Proof.
  unfold same_body. intros Hb.
  by rewrite <- !take_drop_commute, Hb.
Qed.

Lemma alike_set_inbox w w' i i' :
  alike w w' → Forall2 same_body i i' → alike (set_inbox w i) (set_inbox w' i').
Proof.
  intros [Hw _] Hi. split; [|done].
  destruct w, w'. unfold set_inbox in *. simpl in *. congruence.
Qed.

Lemma alike_closed w w' : alike w w' → sock_closed w = sock_closed w'.
Proof. intros [Hw _]. by apply (f_equal sock_closed) in Hw. Qed.

Lemma alike_add_log w w' r : alike w w' → alike (add_log w r) (add_log w' r).
Proof.
  intros [Hw Hi]. split; [|done].
  destruct w, w'. unfold set_inbox, add_log in *. simpl in *. congruence.
Qed.

Section header_facts.
Context {imports : Imports}.
Implicit Types (conn : A2SStream) (w : World).

Lemma recv_fragments_alike fuel : ∀ fragments w w',
  alike w w' →
  outcomes_alike (recv_fragments fuel fragments w) (recv_fragments fuel fragments w').
Proof.
  induction fuel as [|fuel IH]; intros [|first rest] w w' Hw.
  1, 3: done.
  all: rewrite !recv_fragments_eq;
    destruct (Z.of_nat (length (first :: rest)) <? fragment_count first).
  1, 2, 4: done.
  unfold bind at 1 3. unfold sock_recv.
  rewrite <- (alike_closed _ _ Hw). destruct (sock_closed w); [done|].
  pose proof Hw as [_ Hin].
  destruct Hin as [|d d' i i' Hd Hi]; [done|].
  change (Z.to_nat 4096) with (4 + 4092)%nat.
  rewrite (same_body_take 4092 d d' Hd).
  pose proof (alike_set_inbox _ _ _ _ Hw Hi) as Hw1.
  unfold bind. destruct (decode_fragment _) as [e|f]; simpl; [done|].
  by apply IH.
Qed.

Lemma outcomes_alike_result {A} (o o' : outcome A) :
  outcomes_alike o o' → result o = result o'.
Proof. destruct o, o'; simpl; try done; by intros [-> _]. Qed.

(** X3. [recv] does not look at the first four bytes of the datagrams
    that follow the first one of a multi-packet response: with other
    bytes in their place, it returns the same buffer or raises the same
    exception. *)
Theorem recv_ignores_continuation_headers conn w d0 rest rest' :
  inbox w = d0 :: rest →
  Forall2 same_body rest rest' →
  result (recv conn (set_inbox w (d0 :: rest'))) = result (recv conn w).
Proof.
  intros Hin Hrest.
  assert (Hw1 : alike (set_inbox w rest') (set_inbox w rest)).
  { split; [done|]. simpl. clear -Hrest.
    induction Hrest; constructor; [by symmetry | done]. }
  destruct (sock_closed w) eqn:Hc.
  { unfold recv, bind, sock_recv. simpl. by rewrite Hc. }
  rewrite (recv_eq conn w (take (Z.to_nat 65535) d0) (set_inbox w rest))
    by (unfold sock_recv; by rewrite Hc, Hin).
  rewrite (recv_eq conn (set_inbox w (d0 :: rest')) (take (Z.to_nat 65535) d0)
             (set_inbox w rest'))
    by (unfold sock_recv; simpl; by rewrite Hc).
  repeat case_decide; try done.
  unfold bind at 1 4. destruct (decode_fragment _) as [e|first]; [done|]. simpl.
  pose proof (recv_fragments_alike (Z.to_nat (fragment_count first)) [first] _ _ Hw1)
    as Hres.
  unfold bind at 1 3.
  destruct (recv_fragments _ _ (set_inbox w rest')),
    (recv_fragments _ _ (set_inbox w rest)); simpl in Hres; try done;
    by destruct Hres as [-> _].
Qed.
End header_facts.

(** ** Fragments that arrive in the order of their ids *)

Lemma sort_by_key_sorted_id {A} (key : A → Z) (l : list A) :
  StronglySorted (key_le key) l → sort_by_key key l = l.
Proof.
  induction 1 as [|x l Hl IH Hx]; [done|]. simpl. rewrite IH.
  destruct Hx as [|y l Hy _]; [done|]. simpl.
  unfold key_le in Hy. by destruct (Z.leb_spec (key x) (key y)); [|lia].
Qed.

Section arrival_facts.
Context {imports : Imports}.
Implicit Types (conn : A2SStream) (w : World).

(** X4. [recv] does not ask the ids of the fragments to be distinct or
    to follow each other: when the fragments arrive with ids that never
    go down (all the same id, for one), the buffer is made of their
    payloads in the order they arrived. *)
Theorem recv_fragments_in_arrival_order conn w packet w1 first ds more tail :
  sock_recv 65535 w = Return packet w1 →
  take 4 packet = HEADER_MULTI →
  decode_fragment (drop 4 packet) = inr first →
  inbox w1 = ds ++ tail →
  Forall2 continuation ds more →
  Z.of_nat (length (first :: more)) = Z.max 1 (fragment_count first) →
  StronglySorted (key_le fragment_id) (first :: more) →
  recv conn w
  = Return (strip_header (bytes_join (payload <$> first :: more)))
      (add_log (set_inbox w1 tail)
         (ReceivedMulti (length (first :: more))
            (strip_header (bytes_join (payload <$> first :: more))))).
Proof.
  intros Hrecv Hheader Hfirst Hin Hall Hlen Hsorted.
  rewrite (recv_multi conn w packet w1 first (first :: more) (set_inbox w1 tail)
             Hrecv Hheader Hfirst).
  - unfold reassemble, join_fragments. by rewrite sort_by_key_sorted_id.
  - apply (recv_fragments_run ds more _ first [] w1 tail); try done.
    + by apply sock_recv_closed in Hrecv.
    + apply Forall2_length in Hall. simpl in Hlen. lia.
Qed.

(** X5. What [send] hands to the socket, [recv] takes apart again. When
    [send] has returned, it has handed one datagram to the socket, for
    the address of the stream; and this datagram, when it is the next to
    arrive at a stream, is received as [data]. *)
Theorem send_recv_round_trip conn conn' data w w1 w2 rest :
  send conn data w = Return tt w1 →
  Z.of_nat (length data) + 4 <= 65535 →
  ∃ packet,
    sent w1 = sent w ++ [(address conn, packet)]
    ∧ (sock_closed w2 = false → inbox w2 = packet :: rest →
       recv conn' w2
       = Return data (add_log (set_inbox w2 rest) (ReceivedSingle data))).
Proof.
  intros Hsend Hlen. exists (HEADER_SIMPLE ++ data).
  destruct (sock_closed w) eqn:Hopen.
  { by rewrite send_closed in Hsend. }
  rewrite send_open in Hsend by done. injection Hsend as <-.
  split; [done|]. intros Hopen2 Hin2.
  rewrite (recv_simple_datagram conn' w2 (HEADER_SIMPLE ++ data) rest); try done.
  rewrite length_app. simpl. lia.
Qed.
End arrival_facts.

(** ** More of [request_sync_impl] and [request_sync] *)

Section call_facts.
Context {imports : Imports} {R : Type}.
Implicit Types (conn : A2SStream) (a2s_proto : Protocol R) (w : World).
Implicit Types (challenge retries : Z) (ping : option float).

(** X6. An exchange that raises is not tried again. When [request]
    raises, the timeout of the socket or another exception, the call
    raises the same exception at once: no other datagram is sent than
    the one of this attempt, if it was sent at all, the clock is not read
    again, the deserializer is not called and the socket is left as it
    was. *)
Theorem request_error_not_retried fuel conn encoding a2s_proto challenge retries ping
    w e w1 :
  request conn (serialize_request a2s_proto challenge) (tick w) = Raise e w1 →
  request_sync_impl (S fuel) conn encoding a2s_proto challenge retries ping w
  = Raise e w1
  ∧ ticks w1 = S (ticks w)
  ∧ deserialized w1 = deserialized w
  ∧ sock_closed w1 = sock_closed w
  ∧ (sent w1 = sent w ∨ sent w1 = sent w ++ [request_datagram conn a2s_proto challenge]).
Proof.
  intros Hreq. split; [by apply request_sync_impl_no_response|].
  destruct (request_world conn (serialize_request a2s_proto challenge) (tick w) w1)
    as ((_ & Hticks & Hclosed & Hdes) & Hsent & _); [by rewrite Hreq|].
  split; [done|]. split; [done|]. split; [done|].
  destruct (sock_closed w) eqn:Hc.
  - left. revert Hreq. unfold request, bind at 1.
    rewrite send_closed by done. by intros [= _ <-].
  - right. by apply Hsent.
Qed.

(** X7. The recursion of [request_sync_impl] is bounded: with
    [DEFAULT_RETRIES - retries] retries left, one call more than that
    brings it to an end, and what it ends with does not change when it
    may make more calls. *)
Theorem request_sync_impl_bounded fuel fuel' conn encoding a2s_proto challenge retries
    ping w :
  (Z.to_nat (DEFAULT_RETRIES - retries) < fuel)%nat → (fuel ≤ fuel')%nat →
  terminates (request_sync_impl fuel conn encoding a2s_proto challenge retries ping w)
  ∧ request_sync_impl fuel' conn encoding a2s_proto challenge retries ping w
    = request_sync_impl fuel conn encoding a2s_proto challenge retries ping w.
Proof.
  intros Hfuel Hle.
  pose proof (request_sync_impl_terminates fuel conn encoding a2s_proto challenge
                retries ping w Hfuel) as Hterm.
  split; [done|]. induction Hle as [|fuel' Hle IH]; [done|].
  rewrite request_sync_impl_fuel; [done|]. by rewrite IH.
Qed.
Lemma le_val_bound (bs : bytes) : 0 <= le_val bs < 256 ^ Z.of_nat (length bs).
Proof.
  induction bs as [|b bs IH]; [done|].
  cbn [le_val length]. rewrite Nat2Z.inj_succ, Z.pow_succ_r by lia.
  pose proof (byte_val_range b). lia.
Qed.

(** The datagrams of a call: the request with the challenge of the call,
    then one request for each challenge that was received. *)
Lemma request_sync_impl_requests fuel :
  ∀ conn encoding a2s_proto challenge retries ping w w',
  world_of (request_sync_impl fuel conn encoding a2s_proto challenge retries ping w)
  = Some w' →
  sock_closed w = false →
  ∃ cs,
    sent w' = sent w ++ (request_datagram conn a2s_proto <$> challenge :: cs)
    ∧ (length cs ≤ Z.to_nat (DEFAULT_RETRIES - retries))%nat
    ∧ Forall (λ c, 0 <= c < 2 ^ 32) cs.
Proof.
  induction fuel as [|fuel IH]; intros conn encoding a2s_proto challenge retries ping w w';
    [done|].
  assert (Hone : ∀ w1,
    world_of (request conn (serialize_request a2s_proto challenge) (tick w)) = Some w1 →
    sock_closed w = false →
    sent w1 = sent w ++ [request_datagram conn a2s_proto challenge]).
  { intros w1 (_ & Hsent & _)%request_world Hopen. by apply Hsent. }
  destruct (request_sync_impl_cases fuel conn encoding a2s_proto challenge retries ping w)
    as [e w1 Hreq|w1 Hreq|b rest w1 Hreq Hb Hr|b rest w1 Hreq Hb Hr Hlen
       |b rest w1 Hreq Hb Hr Hlen|b rest w1 Hreq Hb Hv|b rest w1 Hreq Hb Hv].
  1-4, 6: intros [= <-] Hopen; exists []; split; [|split; [simpl; lia|done]];
    cbn [sent tick]; apply Hone; [by rewrite Hreq | done].
  - intros Hw' Hopen.
    pose proof (request_session _ _ _ _ _ Hreq) as (_ & _ & Hc & _).
    apply IH in Hw' as (cs & Hsent & Hlen' & Hcs); [|simpl; congruence].
    exists (le_val (take 4 rest) :: cs). split; [|split].
    + rewrite Hsent. cbn [sent tick]. rewrite (Hone w1) by (by rewrite ?Hreq).
      by rewrite <- app_assoc.
    + simpl. lia.
    + constructor; [|done].
      pose proof (le_val_bound (take 4 rest)) as Hbound.
      rewrite length_take, Nat.min_l in Hbound by done. done.
  - destruct (call_deserialize_world a2s_proto (mkReader rest encoding) (byte_val b)
                (attempt_ping retries ping w w1) (tick w1)) as (o & -> & _ & -> & _).
    intros [= <-] Hopen. exists []. split; [|split; [simpl; lia|done]].
    cbn [sent tick log_deserialize]. apply Hone; [by rewrite Hreq | done].
Qed.

(** X8. Whatever the server answers, [request_sync] comes to an end, and
    the datagrams it has sent are requests to the address of the call,
    [DEFAULT_RETRIES + 1] of them at most: the first one is the request
    with the challenge 0, the ones after it are requests with challenges
    that fit 32 bits. *)
Theorem request_sync_requests address timeout encoding a2s_proto w :
  ∃ w' cs,
    world_of (request_sync address timeout encoding a2s_proto w) = Some w'
    ∧ sent w' = sent w ++ (request_datagram (mkStream address) a2s_proto <$> cs)
    ∧ (length cs ≤ S (Z.to_nat DEFAULT_RETRIES))%nat
    ∧ (∀ c, head cs = Some c → c = 0)
    ∧ Forall (λ c, 0 <= c < 2 ^ 32) (tail cs).
Proof.
  pose proof (request_sync_terminates address timeout encoding a2s_proto w) as Hterm.
  rewrite request_sync_eq in *.
  destruct (request_sync_impl _ _ _ _ _ _ _ _) as [res w1|e w1|] eqn:Himpl; [| |done].
  all: destruct (request_sync_impl_requests enough_fuel (mkStream address) encoding
                   a2s_proto 0 0 None (set_closed w false) w1)
         as (cs & Hsent & Hlen & Hcs); [by rewrite Himpl | done |];
    rewrite Z.sub_0_r in Hlen; eexists _, (0 :: cs); split; [done|];
    split; [done|]; split; [simpl; lia|]; split; [by intros c [= <-] | done].
Qed.

(** The call of the deserializer, when there is one: with a response
    type that is not the challenge tag and that the protocol accepts. *)
Lemma request_sync_impl_validated fuel :
  ∀ conn encoding a2s_proto challenge retries ping w o,
  request_sync_impl fuel conn encoding a2s_proto challenge retries ping w = o →
  (∀ w', world_of o = Some w' →
     deserialized w' = deserialized w
     ∨ ∃ reader response_type ping',
         deserialized w' = deserialized w ++ [(reader, response_type, ping')]
         ∧ response_type ≠ A2S_CHALLENGE_RESPONSE
         ∧ validate_response_type a2s_proto response_type = true)
  ∧ (∀ res w', o = Return res w' →
       ∃ reader response_type ping',
         deserialized w' = deserialized w ++ [(reader, response_type, ping')]
         ∧ response_type ≠ A2S_CHALLENGE_RESPONSE
         ∧ validate_response_type a2s_proto response_type = true
         ∧ deserialize_response a2s_proto reader response_type ping' = inr res).
Proof.
  induction fuel as [|fuel IH];
    intros conn encoding a2s_proto challenge retries ping w o <-; [done|].
  destruct (request_sync_impl_cases fuel conn encoding a2s_proto challenge retries ping w)
    as [e w1 Hreq|w1 Hreq|b rest w1 Hreq Hb Hr|b rest w1 Hreq Hb Hr Hlen
       |b rest w1 Hreq Hb Hr Hlen|b rest w1 Hreq Hb Hv|b rest w1 Hreq Hb Hv].
  1: { split; [|done]. intros w' [= <-]. left.
       by destruct (request_world conn (serialize_request a2s_proto challenge)
                      (tick w) w1) as [(_ & _ & _ & ?) _]; [by rewrite Hreq|]. }
  1-3, 5: split; [|done]; intros w' [= <-]; left;
    by apply request_session in Hreq as (_ & _ & _ & ?).
  - apply request_session in Hreq as (_ & _ & _ & Hdes).
    destruct (IH conn encoding a2s_proto (le_val (take 4 rest)) (retries + 1)
                (attempt_ping retries ping w w1) (tick w1) _ eq_refl) as [IH1 IH2].
    simpl in IH1, IH2. rewrite Hdes in IH1, IH2. done.
  - apply request_session in Hreq as (_ & _ & _ & Hdes).
    destruct (call_deserialize_world a2s_proto (mkReader rest encoding) (byte_val b)
                (attempt_ping retries ping w w1) (tick w1)) as (o & -> & _ & Hw & Hres).
    split.
    + intros w'. rewrite Hw. intros [= <-]. right.
      eexists _, _, _. simpl. rewrite Hdes. done.
    + intros res w' ->. injection Hw as ->.
      eexists _, _, _. simpl. rewrite Hdes.
      split; [done|]. split; [done|]. split; [done|]. by eapply Hres.
Qed.

(** X9. [request_sync] calls the deserializer at most once, and only
    with a response type that is not the challenge tag and that
    [validate_response_type] accepts. When [request_sync] returns, it
    returns what this one call returned, and the socket is closed. *)
Theorem request_sync_deserializes_validated address timeout encoding a2s_proto w :
  (∀ w', world_of (request_sync address timeout encoding a2s_proto w) = Some w' →
     deserialized w' = deserialized w
     ∨ ∃ reader response_type ping,
         deserialized w' = deserialized w ++ [(reader, response_type, ping)]
         ∧ response_type ≠ A2S_CHALLENGE_RESPONSE
         ∧ validate_response_type a2s_proto response_type = true)
  ∧ (∀ res w', request_sync address timeout encoding a2s_proto w = Return res w' →
       sock_closed w' = true
       ∧ ∃ reader response_type ping,
           deserialized w' = deserialized w ++ [(reader, response_type, ping)]
           ∧ response_type ≠ A2S_CHALLENGE_RESPONSE
           ∧ validate_response_type a2s_proto response_type = true
           ∧ deserialize_response a2s_proto reader response_type ping = inr res).
Proof.
  rewrite request_sync_eq.
  destruct (request_sync_impl_validated enough_fuel (mkStream address) encoding
              a2s_proto 0 0 None (set_closed w false) _ eq_refl) as [H1 H2].
  destruct (request_sync_impl _ _ _ _ _ _ _ _) as [res w1|e w1|]; simpl in *.
  - split.
    + intros w' [= <-]. by apply (H1 w1).
    + intros res' w' [= <- <-]. split; [done|]. by apply (H2 res w1).
  - split; [|done]. intros w' [= <-]. by apply (H1 w1).
  - done.
Qed.

(** X10. When [request_sync] ends with an exception, of the socket, of
    the transport, of the reader or of the deserializer, it has not
    closed the socket: [conn.close()] is only reached on a return. *)
Theorem request_sync_raise_leaves_open address timeout encoding a2s_proto w e w' :
  request_sync address timeout encoding a2s_proto w = Raise e w' →
  sock_closed w' = false.
Proof.
  rewrite request_sync_eq.
  destruct (request_sync_impl _ _ _ _ _ _ _ _) as [res w1|e1 w1|] eqn:Himpl; [done| |done].
  intros [= _ <-].
  by destruct (request_sync_impl_session enough_fuel (mkStream address) encoding
                 a2s_proto 0 0 None (set_closed w false) w1) as [_ ?];
    [by rewrite Himpl|].
Qed.

Lemma exchanges_cons payload l :
  l = [] ∨ (∃ r l', l = r :: l' ∧ is_received r = true ∧ exchanges l') →
  exchanges (Sending payload :: l).
Proof. intros [->|(r & l' & -> & Hr & Hl)]; simpl; done. Qed.

(** X11. The requests and the responses of a call take turns: what
    [request_sync] adds to the log begins with the request with the
    challenge 0 and goes on with responses each followed by the next
    request; no request is written, and so none is sent, before the
    response to the one before it has come. *)
Theorem request_sync_exchanges address timeout encoding a2s_proto w :
  ∃ w' l,
    world_of (request_sync address timeout encoding a2s_proto w) = Some w'
    ∧ log w' = log w ++ l
    ∧ exchanges l
    ∧ (∀ r, head l = Some r → r = Sending (serialize_request a2s_proto 0)).
Proof.
  pose proof (request_sync_terminates address timeout encoding a2s_proto w) as Hterm.
  rewrite request_sync_eq in *.
  destruct (request_sync_impl _ _ _ _ _ _ _ _) as [res w1|e w1|] eqn:Himpl; [| |done].
  all: destruct (request_sync_impl_log enough_fuel (mkStream address) encoding
                   a2s_proto 0 0 None (set_closed w false) w1)
         as (l & Hlog & Hl); [by rewrite Himpl|];
    eexists _, (_ :: l); split; [done|]; split; [done|];
    split; [by apply exchanges_cons | by intros r [= <-]].
Qed.
End call_facts.

(** * More of [a2s/datacls.py] *)

Import datacls_iter.

(** ** The class that [DataclsMeta.__new__] makes *)

Lemma od_set_keys k v (od : OrderedDict) k' :
  k' ∈ (od_set k v od).*1 ↔ k' = k ∨ k' ∈ od.*1.
Proof.
  unfold od_set. case_bool_decide as Hk.
  - rewrite <- list_fmap_compose.
    assert (Hmap : (fst ∘ (λ kv : string * value,
                             if bool_decide (kv.1 = k) then (k, v) else kv)) <$> od
                   = od.*1).
    { apply list_fmap_ext. intros i [k0 v0] _. simpl.
      case_bool_decide; simpl in *; by subst. }
    rewrite Hmap. split; [by right|]. by intros [->|?].
  - rewrite fmap_app, elem_of_app. simpl. rewrite list_elem_of_singleton. tauto.
Qed.

Lemma collect_default_members names : ∀ (values : OrderedDict) (prop : gmap string value),
  (∀ m, (foldl collect_default (values, prop) names).2 !! m
        = if bool_decide (m ∈ names) then None else prop !! m)
  ∧ (∀ m, m ∈ (foldl collect_default (values, prop) names).1.*1
          ↔ m ∈ names ∨ m ∈ values.*1).
Proof.
  induction names as [|n names IH]; intros values prop.
  { split; intros m; cbn [foldl fst snd].
    - case_bool_decide as Hm; [by apply elem_of_nil in Hm | done].
    - rewrite elem_of_nil. tauto. }
  cbn [foldl].
  assert (Hstep : ∃ v (prop' : gmap string value),
    collect_default (values, prop) n = (od_set n v values, prop')
    ∧ ∀ m, prop' !! m = if bool_decide (m = n) then None else prop !! m).
  { unfold collect_default. cbn [fst snd].
    destruct (prop !! n) as [v|] eqn:Hv.
    - exists v, (delete n prop). split; [done|]. intros m.
      case_bool_decide as Hm; [subst; apply lookup_delete_eq|].
      by apply lookup_delete_ne.
    - exists VNone, prop. split; [done|]. intros m.
      case_bool_decide as Hm; by subst. }
  destruct Hstep as (v & prop' & -> & Hprop').
  destruct (IH (od_set n v values) prop') as [IH1 IH2]. split; intros m.
  - rewrite IH1, Hprop'.
    repeat case_bool_decide; try done; exfalso;
      rewrite ?elem_of_cons in *; tauto.
  - rewrite IH2, od_set_keys, elem_of_cons. tauto.
Qed.

(** X12. A class body without annotations cannot be made a class:
    [DataclsMeta.__new__] raises [KeyError]. When it makes a class, it
    has put [DataclsBase] before the bases, and in the namespace it
    hands to [type.__new__] it has written the annotated names under
    [__slots__] and the defaults under [_defaults], taken out the class
    variable of every annotated name, and kept every other member as the
    body gave it ([__annotations__] itself, which stays where it is, is
    not among the members of the model). *)
Theorem DataclsMeta_new_class name bases prop :
  (annotations prop = None →
   DataclsMeta_new name bases prop = inl (KeyError "__annotations__"))
  ∧ (∀ names cls,
       annotations prop = Some names →
       DataclsMeta_new name bases prop = inr cls →
       cls_name cls = name
       ∧ cls_bases cls = "DataclsBase"%string :: bases
       ∧ (∀ n, n ∈ __slots__ cls ↔ n ∈ names)
       ∧ __slots__ cls = (_defaults cls).*1
       ∧ namespace cls !! "__slots__"%string = Some (SlotNames (__slots__ cls))
       ∧ namespace cls !! "_defaults"%string = Some (Defaults (_defaults cls))
       ∧ (∀ m, m ≠ "__slots__"%string → m ≠ "_defaults"%string →
            m ≠ "__annotations__"%string →
            namespace cls !! m
            = if bool_decide (m ∈ names) then None else ClassVar <$> members prop !! m)).
Proof.
  unfold DataclsMeta_new. split; [by intros ->|].
  intros names cls -> [= <-]. cbn [cls_name cls_bases __slots__ _defaults namespace].
  destruct (collect_default_members names [] (members prop)) as [Hm Hk].
  split; [done|]. split; [done|]. split.
  { intros n. rewrite Hk. simpl. rewrite elem_of_nil. tauto. }
  split; [done|]. split.
  { by rewrite lookup_insert_ne, lookup_insert_eq. }
  split; [by rewrite lookup_insert_eq|].
  intros m Hs Hd _. rewrite !lookup_insert_ne, lookup_fmap, Hm by done.
  by case_bool_decide.
Qed.

(** ** The fields of one instance *)

Lemma shallow_copy_ref h x h' l : shallow_copy h x h' (VRef l) → (length h ≤ l)%nat.
Proof.
  destruct x; simpl; try done. by intros (l' & [= ->] & ? & _).
Qed.

Lemma init_fields_distinct kwargs items : ∀ self h,
  NoDup items.*1 →
  (∀ item, item ∈ items → valid h (field_source kwargs item)) →
  ∀ item1 item2 l1 l2,
    item1 ∈ items → item2 ∈ items → item1.1 ≠ item2.1 →
    (foldl (init_field kwargs) (self, h) items).1 !! item1.1 = Some (VRef l1) →
    (foldl (init_field kwargs) (self, h) items).1 !! item2.1 = Some (VRef l2) →
    l1 ≠ l2.
Proof.
  induction items as [|item items IH]; intros self h Hnd Hvalid item1 item2 l1 l2 Hin1 Hin2.
  { by apply elem_of_nil in Hin1. }
  rewrite fmap_cons in Hnd. apply NoDup_cons in Hnd as [Hfresh Hnd].
  assert (Hstep : foldl (init_field kwargs) (self, h) (item :: items)
                  = foldl (init_field kwargs)
                      (<[item.1 := (copy_copy (field_source kwargs item) h).1]> self,
                       (copy_copy (field_source kwargs item) h).2) items)
    by reflexivity.
  rewrite Hstep. clear Hstep.
  set (c := copy_copy (field_source kwargs item) h).
  assert (Hsrc : valid h (field_source kwargs item)) by (apply Hvalid; left).
  destruct (copy_copy_extends (field_source kwargs item) h) as [ext1 Hext1].
  fold c in Hext1.
  assert (Hvalid1 : ∀ item', item' ∈ items → valid c.2 (field_source kwargs item')).
  { intros item' Hin. rewrite Hext1. apply valid_extends, Hvalid. by right. }
  destruct (init_fields kwargs items (<[item.1 := c.1]> self) c.2 Hnd Hvalid1)
    as (_ & Hother & Hfield).
  assert (Hhead : ∀ l, (foldl (init_field kwargs) (<[item.1 := c.1]> self, c.2) items).1
                       !! item.1 = Some (VRef l) → (l < length c.2)%nat).
  { intros l. rewrite (Hother item.1 Hfresh), lookup_insert_eq. intros [= Hl].
    by apply (copy_copy_bound (field_source kwargs item) h). }
  assert (Hlater : ∀ item' l, item' ∈ items →
            (foldl (init_field kwargs) (<[item.1 := c.1]> self, c.2) items).1
            !! item'.1 = Some (VRef l) → (length c.2 ≤ l)%nat).
  { intros item' l Hin Hl. destruct (Hfield item' Hin) as (c' & Hc' & Hcopy & _).
    rewrite Hl in Hc'. injection Hc' as <-. by eapply shallow_copy_ref. }
  apply elem_of_cons in Hin1 as [->|Hin1]; apply elem_of_cons in Hin2 as [->|Hin2];
    intros Hne H1 H2.
  - done.
  - apply Hhead in H1. apply (Hlater _ _ Hin2) in H2. lia.
  - apply Hhead in H2. apply (Hlater _ _ Hin1) in H1. lia.
  - by apply (IH (<[item.1 := c.1]> self) c.2 Hnd Hvalid1 item1 item2 l1 l2).
Qed.

(** X13. Two fields of one instance are never the same mutable object,
    also when their defaults, or the arguments given for them, are the
    same object: each field has a copy of its own. *)
Theorem datacls_fields_distinct name bases prop names cls kwargs h n1 n2 l1 l2 :
  annotations prop = Some names → NoDup names →
  DataclsMeta_new name bases prop = inr cls →
  (∀ n, n ∈ names → valid h (field_source kwargs (n, declared_default prop n))) →
  n1 ≠ n2 →
  (construct cls kwargs h).1 !! n1 = Some (VRef l1) →
  (construct cls kwargs h).1 !! n2 = Some (VRef l2) →
  l1 ≠ l2.
Proof.
  intros Hann Hnd Hcls Hvalid Hne H1 H2.
  destruct (DataclsMeta_new_defaults name bases prop names Hann Hnd)
    as (cls' & Hcls' & Hdef & _).
  assert (cls' = cls) as -> by congruence.
  assert (Hkeys : (_defaults cls).*1 = names).
  { rewrite Hdef. clear. induction names as [|n names IH]; [done|].
    rewrite !fmap_cons. cbn [fst]. by rewrite IH. }
  assert (Hitems : ∀ n, n ∈ names → (n, declared_default prop n) ∈ _defaults cls).
  { intros n Hn. rewrite Hdef, list_elem_of_fmap. by exists n. }
  assert (Hin : ∀ n l, (construct cls kwargs h).1 !! n = Some (VRef l) → n ∈ names).
  { intros n l Hl. destruct (decide (n ∈ names)) as [|Hn]; [done|].
    destruct (construct_fields cls kwargs h) as (_ & Hother & _).
    - by rewrite Hkeys.
    - intros item Hitem. rewrite Hdef in Hitem.
      apply list_elem_of_fmap in Hitem as (n' & -> & Hn'). by apply Hvalid.
    - rewrite Hother in Hl by (by rewrite Hkeys). done. }
  unfold construct, DataclsBase_init in *.
  apply (init_fields_distinct kwargs (_defaults cls) ∅ h) with
    (item1 := (n1, declared_default prop n1)) (item2 := (n2, declared_default prop n2));
    try done.
  - by rewrite Hkeys.
  - intros item Hitem. rewrite Hdef in Hitem.
    apply list_elem_of_fmap in Hitem as (n & -> & Hn). by apply Hvalid.
  - apply Hitems. by eapply Hin.
  - apply Hitems. by eapply Hin.
Qed.

(** ** [DataclsBase.__iter__] *)

Lemma DataclsBase_iter_set names self :
  Forall (λ n, is_Some (self !! n)) names →
  DataclsBase_iter names self = ((λ n, (n, default VNone (self !! n))) <$> names, None).
Proof.
  induction 1 as [|n names [v Hv] _ IH]; [done|].
  cbn [DataclsBase_iter]. rewrite Hv, IH, fmap_cons. cbn [fst snd]. by rewrite Hv.
Qed.

(** X14. Iterating over an instance yields its fields in the order of the
    annotations, each name with its value. When a field was never set,
    the names before it are yielded and the iteration ends with the
    [AttributeError] of this field; the names after it are not looked
    at. *)
Theorem DataclsBase_iter_yields names self :
  (Forall (λ n, is_Some (self !! n)) names →
   DataclsBase_iter names self
   = ((λ n, (n, default VNone (self !! n))) <$> names, None))
  ∧ (∀ pre n post,
       names = pre ++ n :: post →
       Forall (λ n, is_Some (self !! n)) pre → self !! n = None →
       DataclsBase_iter names self
       = ((λ n, (n, default VNone (self !! n))) <$> pre, Some (AttributeError n))).
Proof.
  split; [apply DataclsBase_iter_set|].
  intros pre n post -> Hpre Hn.
  induction Hpre as [|m pre [v Hv] _ IH].
  - simpl. by rewrite Hn.
  - cbn [app DataclsBase_iter]. rewrite Hv, IH, fmap_cons. cbn [fst snd].
    by rewrite Hv.
Qed.

(** X15. An instance that was constructed can be iterated to the end,
    and what is yielded, given back to the class as keyword arguments,
    makes an instance whose every field is a shallow copy of the field
    it came from. *)
Theorem datacls_rebuild name bases prop names cls kwargs h :
  annotations prop = Some names → NoDup names →
  DataclsMeta_new name bases prop = inr cls →
  (∀ n, n ∈ names → valid h (field_source kwargs (n, declared_default prop n))) →
  ∃ pairs,
    DataclsBase_iter names (construct cls kwargs h).1 = (pairs, None)
    ∧ pairs.*1 = names
    ∧ ∀ n, n ∈ names →
        ∃ v c,
          (construct cls kwargs h).1 !! n = Some v
          ∧ (construct cls (as_kwargs pairs) (construct cls kwargs h).2).1 !! n = Some c
          ∧ shallow_copy (construct cls kwargs h).2 v
              (construct cls (as_kwargs pairs) (construct cls kwargs h).2).2 c.
Proof.
  intros Hann Hnd Hcls Hvalid.
  destruct (DataclsMeta_new_defaults name bases prop names Hann Hnd)
    as (cls' & Hcls' & Hdef & _).
  assert (cls' = cls) as -> by congruence.
  assert (Hkeys : (_defaults cls).*1 = names).
  { rewrite Hdef. clear. induction names as [|n names IH]; [done|].
    rewrite !fmap_cons. cbn [fst]. by rewrite IH. }
  assert (Hitems : ∀ item, item ∈ _defaults cls →
                           ∃ n, n ∈ names ∧ item = (n, declared_default prop n)).
  { intros item Hitem. rewrite Hdef in Hitem.
    apply list_elem_of_fmap in Hitem as (n & -> & Hn). by exists n. }
  destruct (construct_fields cls kwargs h) as (Hfield & _ & Hnew & _).
  { by rewrite Hkeys. }
  { intros item (n & Hn & ->)%Hitems. by apply Hvalid. }
  set (p := construct cls kwargs h) in *.
  assert (Hset : ∀ n, n ∈ names → is_Some (p.1 !! n)).
  { intros n Hn. destruct (Hfield (n, declared_default prop n)) as (c & Hc & _).
    - rewrite Hdef, list_elem_of_fmap. by exists n.
    - by exists c. }
  set (pairs := (λ n, (n, default VNone (p.1 !! n))) <$> names).
  assert (Hpairs : pairs.*1 = names).
  { unfold pairs. clear. induction names as [|n names IH]; [done|].
    rewrite !fmap_cons. cbn [fst]. by rewrite IH. }
  exists pairs. split; [|split; [done|]].
  { apply DataclsBase_iter_set. by apply Forall_forall. }
  assert (Hkw : ∀ n, n ∈ names → as_kwargs pairs !! n = p.1 !! n).
  { intros n Hn. destruct (Hset n Hn) as [v Hv]. rewrite Hv.
    unfold as_kwargs. apply elem_of_list_to_map; [by rewrite Hpairs|].
    unfold pairs. rewrite list_elem_of_fmap. exists n. by rewrite Hv. }
  destruct (construct_fields cls (as_kwargs pairs) p.2) as (Hfield2 & _).
  { by rewrite Hkeys. }
  { intros item (n & Hn & ->)%Hitems. unfold field_source. cbn [fst].
    rewrite (Hkw n Hn). destruct (Hset n Hn) as [v Hv]. rewrite Hv.
    destruct v; simpl; try done. apply lookup_lt_is_Some. by apply (Hnew n). }
  intros n Hn. destruct (Hset n Hn) as [v Hv].
  destruct (Hfield2 (n, declared_default prop n)) as (c & Hc & Hcopy).
  { rewrite Hdef, list_elem_of_fmap. by exists n. }
  exists v, c. split; [done|]. split; [done|].
  unfold field_source in Hcopy. cbn [fst] in Hcopy. by rewrite (Hkw n Hn), Hv in Hcopy.
Qed.

(** * The further properties on the samples *)

Lemma recv_multi_timeout_witness :
  recv (imports := sample_imports) sample_conn
    (sample_world [[xfe; xff; xff; xff; x00; x03; x41]; [xfe; xff; xff; xff; x01; x03; x42]])
  = Raise SocketTimeout (sample_world []).
Proof.
  apply (recv_multi_timeout (imports := sample_imports) sample_conn
           (sample_world [[xfe; xff; xff; xff; x00; x03; x41];
                          [xfe; xff; xff; xff; x01; x03; x42]])
           [xfe; xff; xff; xff; x00; x03; x41]
           (sample_world [[xfe; xff; xff; xff; x01; x03; x42]])
           (mkFragment 0 3 [x41]) [mkFragment 1 3 [x42]]);
    [reflexivity | reflexivity | reflexivity | | by vm_compute].
  repeat constructor.
Defined.

Lemma recv_multi_decode_error_witness :
  recv (imports := sample_imports) sample_conn
    (sample_world [[xfe; xff; xff; xff; x00; x03; x41]; [xfe; xff; xff; xff; x01; x03; x42];
                   [xfe; xff; xff; xff; x02]; [xff; xff; xff; xff; x49]])
  = Raise (BrokenMessageError "Invalid fragment") (sample_world [[xff; xff; xff; xff; x49]]).
Proof.
  apply (recv_multi_decode_error (imports := sample_imports) sample_conn
           (sample_world [[xfe; xff; xff; xff; x00; x03; x41];
                          [xfe; xff; xff; xff; x01; x03; x42];
                          [xfe; xff; xff; xff; x02]; [xff; xff; xff; xff; x49]])
           [xfe; xff; xff; xff; x00; x03; x41]
           (sample_world [[xfe; xff; xff; xff; x01; x03; x42];
                          [xfe; xff; xff; xff; x02]; [xff; xff; xff; xff; x49]])
           (mkFragment 0 3 [x41]) [[xfe; xff; xff; xff; x01; x03; x42]]
           [mkFragment 1 3 [x42]] [xfe; xff; xff; xff; x02]);
    [reflexivity | reflexivity | reflexivity | reflexivity | | reflexivity
    | by vm_compute].
  repeat constructor.
Defined.

Lemma recv_ignores_continuation_headers_witness :
  result (recv (imports := sample_imports) sample_conn
            (set_inbox
               (sample_world [[xfe; xff; xff; xff; x00; x02; x41];
                              [xfe; xff; xff; xff; x01; x02; x42]])
               [[xfe; xff; xff; xff; x00; x02; x41]; [x00; x01; x02; x03; x01; x02; x42]]))
  = result (recv (imports := sample_imports) sample_conn
              (sample_world [[xfe; xff; xff; xff; x00; x02; x41];
                             [xfe; xff; xff; xff; x01; x02; x42]])).
Proof.
  apply (recv_ignores_continuation_headers (imports := sample_imports) sample_conn
           (sample_world [[xfe; xff; xff; xff; x00; x02; x41];
                          [xfe; xff; xff; xff; x01; x02; x42]])
           [xfe; xff; xff; xff; x00; x02; x41]
           [[xfe; xff; xff; xff; x01; x02; x42]] [[x00; x01; x02; x03; x01; x02; x42]]);
    [reflexivity|].
  repeat constructor.
Defined.

Lemma recv_fragments_in_arrival_order_witness :
  recv (imports := sample_imports) sample_conn
    (sample_world [[xfe; xff; xff; xff; x00; x02; x41]; [xfe; xff; xff; xff; x00; x02; x42]])
  = Return [x41; x42] (add_log (sample_world []) (ReceivedMulti 2 [x41; x42])).
Proof.
  apply (recv_fragments_in_arrival_order (imports := sample_imports) sample_conn
           (sample_world [[xfe; xff; xff; xff; x00; x02; x41];
                          [xfe; xff; xff; xff; x00; x02; x42]])
           [xfe; xff; xff; xff; x00; x02; x41]
           (sample_world [[xfe; xff; xff; xff; x00; x02; x42]])
           (mkFragment 0 2 [x41]) [[xfe; xff; xff; xff; x00; x02; x42]]
           [mkFragment 0 2 [x42]] []);
    [reflexivity | reflexivity | reflexivity | reflexivity | | reflexivity |].
  - repeat constructor.
  - repeat constructor; by vm_compute.
Defined.

Lemma send_recv_round_trip_witness :
  ∃ packet,
    [(address sample_conn, HEADER_SIMPLE ++ [x54; x01])] = [] ++ [(address sample_conn, packet)]
    ∧ (sock_closed (sample_world [[xff; xff; xff; xff; x54; x01]]) = false →
       inbox (sample_world [[xff; xff; xff; xff; x54; x01]]) = packet :: [] →
       recv (imports := sample_imports) sample_conn
         (sample_world [[xff; xff; xff; xff; x54; x01]])
       = Return [x54; x01]
           (add_log (set_inbox (sample_world [[xff; xff; xff; xff; x54; x01]]) [])
              (ReceivedSingle [x54; x01]))).
Proof.
  apply (send_recv_round_trip (imports := sample_imports) sample_conn sample_conn
           [x54; x01] (sample_world [])
           (mkWorld sample_clock [] [(address sample_conn, HEADER_SIMPLE ++ [x54; x01])]
              0 false [] [Sending [x54; x01]])
           (sample_world [[xff; xff; xff; xff; x54; x01]]) []);
    [reflexivity | by vm_compute].
Defined.

Lemma request_error_not_retried_witness :
  request_sync_impl (imports := sample_imports) 1 sample_conn "utf-8" sample_protocol 0 0 None
    (sample_world [])
  = Raise SocketTimeout
      (mkWorld sample_clock [] [request_datagram sample_conn sample_protocol 0] 1 false []
         [Sending (serialize_request sample_protocol 0)]).
Proof.
  refine (proj1 (request_error_not_retried (imports := sample_imports) 0 sample_conn
                   "utf-8" sample_protocol 0 0 None (sample_world []) SocketTimeout
                   (mkWorld sample_clock [] [request_datagram sample_conn sample_protocol 0]
                      1 false [] [Sending (serialize_request sample_protocol 0)]) _)).
  reflexivity.
Defined.

Lemma request_sync_impl_bounded_witness :
  terminates (request_sync_impl (imports := sample_imports) 6 sample_conn "utf-8"
                sample_protocol 0 0 None sample_challenged)
  ∧ request_sync_impl (imports := sample_imports) 9 sample_conn "utf-8" sample_protocol
      0 0 None sample_challenged
    = request_sync_impl (imports := sample_imports) 6 sample_conn "utf-8" sample_protocol
        0 0 None sample_challenged.
Proof.
  apply (request_sync_impl_bounded (imports := sample_imports) 6 9 sample_conn "utf-8"
           sample_protocol 0 0 None sample_challenged).
  - vm_compute. lia.
  - lia.
Defined.

Lemma request_sync_deserializes_validated_witness :
  sock_closed (set_closed sample_challenged_end true) = true
  ∧ ∃ reader response_type ping,
      deserialized (set_closed sample_challenged_end true)
      = [] ++ [(reader, response_type, ping)]
      ∧ response_type ≠ A2S_CHALLENGE_RESPONSE
      ∧ validate_response_type sample_protocol response_type = true
      ∧ deserialize_response sample_protocol reader response_type ping
        = inr ([x01], Some 0.25%float).
Proof.
  exact (proj2 (request_sync_deserializes_validated (imports := sample_imports)
                  (address sample_conn) 3.0%float "utf-8" sample_protocol
                  sample_challenged)
           ([x01], Some 0.25%float) (set_closed sample_challenged_end true) eq_refl).
Defined.

Lemma request_sync_raise_leaves_open_witness :
  sock_closed
    (mkWorld sample_clock [] [request_datagram sample_conn sample_protocol 0] 1 false []
       [Sending (serialize_request sample_protocol 0)]) = false.
Proof.
  apply (request_sync_raise_leaves_open (imports := sample_imports) (address sample_conn)
           3.0%float "utf-8" sample_protocol (sample_world []) SocketTimeout).
  reflexivity.
Defined.

Lemma recv_order_independent_witness :
  recv (imports := sample_imports) sample_conn
    (sample_world [[xfe; xff; xff; xff; x01; x02; x42]; [xfe; xff; xff; xff; x00; x02; x41]])
  = Return [x41; x42] (add_log (sample_world []) (ReceivedMulti 2 [x41; x42]))
  ∧ recv (imports := sample_imports) sample_conn
      (sample_world [[xfe; xff; xff; xff; x00; x02; x41]; [xfe; xff; xff; xff; x01; x02; x42]])
    = Return [x41; x42] (add_log (sample_world []) (ReceivedMulti 2 [x41; x42])).
Proof.
  apply (recv_order_independent (imports := sample_imports) sample_conn
           (sample_world [[xfe; xff; xff; xff; x01; x02; x42];
                          [xfe; xff; xff; xff; x00; x02; x41]])
           (sample_world [[xfe; xff; xff; xff; x00; x02; x41];
                          [xfe; xff; xff; xff; x01; x02; x42]])
           [[xfe; xff; xff; xff; x01; x02; x42]; [xfe; xff; xff; xff; x00; x02; x41]]
           [[xfe; xff; xff; xff; x00; x02; x41]; [xfe; xff; xff; xff; x01; x02; x42]]
           [mkFragment 1 2 [x42]; mkFragment 0 2 [x41]] []);
    try reflexivity.
  - apply Permutation_swap.
  - discriminate.
  - repeat constructor; by vm_compute.
  - repeat constructor.
  - repeat constructor.
  - apply (bool_decide_unpack _). by vm_compute.
Defined.

Lemma DataclsMeta_new_class_witness :
  namespace sample_class !! "__slots__"%string
  = Some (SlotNames ["name"; "score"; "tags"]%string)
  ∧ namespace sample_class !! "tags"%string = None.
Proof.
  destruct (proj2 (DataclsMeta_new_class "Player" [] sample_body)
              ["name"; "score"; "tags"]%string sample_class)
    as (_ & _ & _ & _ & Hslots & _ & Hmember); [reflexivity | by vm_compute |].
  split; [exact Hslots|]. exact (Hmember "tags"%string ltac:(done) ltac:(done) ltac:(done)).
Defined.

Lemma datacls_fields_distinct_witness : 2%nat ≠ 3%nat.
Proof.
  apply (datacls_fields_distinct "Player" [] sample_body ["name"; "score"; "tags"]%string
           sample_class (<["name"%string := VRef 0]> ∅) sample_heap
           "name"%string "tags"%string 2 3).
  - reflexivity.
  - apply (bool_decide_unpack _). by vm_compute.
  - by vm_compute.
  - intros n Hn.
    repeat (apply elem_of_cons in Hn as [->|Hn]); [..|by apply elem_of_nil in Hn];
      vm_compute; try done; by eexists.
  - discriminate.
  - by vm_compute.
  - by vm_compute.
Defined.

Lemma DataclsBase_iter_yields_witness :
  DataclsBase_iter ["name"; "score"; "tags"]%string (<["name"%string := VInt 1]> ∅)
  = ([("name"%string, VInt 1)], Some (AttributeError "score")).
Proof.
  refine (proj2 (DataclsBase_iter_yields ["name"; "score"; "tags"]%string
                   (<["name"%string := VInt 1]> ∅))
            ["name"%string] "score"%string ["tags"%string] eq_refl _ eq_refl).
  repeat constructor. by eexists.
Defined.

Lemma datacls_rebuild_witness :
  ∃ pairs,
    DataclsBase_iter ["name"; "score"; "tags"]%string
      (construct sample_class ∅ sample_heap).1 = (pairs, None)
    ∧ pairs.*1 = ["name"; "score"; "tags"]%string.
Proof.
  destruct (datacls_rebuild "Player" [] sample_body ["name"; "score"; "tags"]%string
              sample_class ∅ sample_heap)
    as (pairs & Hiter & Hkeys & _).
  - reflexivity.
  - apply (bool_decide_unpack _). by vm_compute.
  - by vm_compute.
  - intros n Hn.
    repeat (apply elem_of_cons in Hn as [->|Hn]); [..|by apply elem_of_nil in Hn];
      vm_compute; try done; by eexists.
  - by exists pairs.
Defined.
